(** * Stock-trade outlier analysis: annotation and graph construction

    A shallow embedding of [data_loader.py], [analysis.py], [create_graph.py]
    and of [Chart.__init__] of [visualization.py].

    A pandas DataFrame is the list of its rows in positional order (the order
    [iterrows] walks), a column is the list of that field over the rows.
    A float64 is a value of [fnum]: an exact rational, one of the two
    infinities, or NaN (pandas' missing-value marker).  The special values
    follow IEEE 754 as numpy applies it (a division by zero gives an infinity
    or NaN, every comparison with NaN is false); rounding and the sign of
    zero are left out. *)

From Stdlib Require Import String Ascii.
From Stdlib Require Import List Bool Arith ZArith QArith Qabs Qround Lia Lqa.
From Stdlib Require Import Permutation Sorted.
Import ListNotations.

Set Implicit Arguments.

(** ** Floating-point values *)

Module Float.

Inductive fnum : Type :=
| Fin (q : Q)
| PInf
| NInf
| NaN.

Definition isna (x : fnum) : bool :=
  match x with NaN => true | _ => false end.

Definition notna (x : fnum) : bool := negb (isna x).

Definition fneg (x : fnum) : fnum :=
  match x with
  | Fin q => Fin (- q)
  | PInf => NInf
  | NInf => PInf
  | NaN => NaN
  end.

Definition fadd (x y : fnum) : fnum :=
  match x, y with
  | NaN, _ | _, NaN => NaN
  | Fin a, Fin b => Fin (a + b)
  | PInf, NInf | NInf, PInf => NaN
  | PInf, _ | _, PInf => PInf
  | NInf, _ | _, NInf => NInf
  end.

Definition fsub (x y : fnum) : fnum := fadd x (fneg y).

(** An infinity with the sign of [s * q], NaN when [q] is zero. *)
Definition inf_times (pos : bool) (q : Q) : fnum :=
  match q ?= 0 with
  | Eq => NaN
  | Gt => if pos then PInf else NInf
  | Lt => if pos then NInf else PInf
  end.

Definition fmul (x y : fnum) : fnum :=
  match x, y with
  | NaN, _ | _, NaN => NaN
  | Fin a, Fin b => Fin (a * b)
  | PInf, Fin b | Fin b, PInf => inf_times true b
  | NInf, Fin b | Fin b, NInf => inf_times false b
  | PInf, PInf | NInf, NInf => PInf
  | PInf, NInf | NInf, PInf => NInf
  end.

(** numpy's division: no exception; [a/0] is an infinity of the sign of [a],
    and [0/0] is NaN. *)
Definition fdiv (x y : fnum) : fnum :=
  match x, y with
  | NaN, _ | _, NaN => NaN
  | Fin a, Fin b =>
      match b ?= 0 with
      | Eq => match a ?= 0 with Eq => NaN | Gt => PInf | Lt => NInf end
      | _ => Fin (a / b)
      end
  | Fin _, (PInf | NInf) => Fin 0
  | PInf, Fin b => match b ?= 0 with Lt => NInf | _ => PInf end
  | NInf, Fin b => match b ?= 0 with Lt => PInf | _ => NInf end
  | (PInf | NInf), (PInf | NInf) => NaN
  end.

Definition fabs (x : fnum) : fnum :=
  match x with
  | Fin q => Fin (Qabs q)
  | PInf | NInf => PInf
  | NaN => NaN
  end.

(** [x < y]; false as soon as one side is NaN. *)
Definition flt (x y : fnum) : bool :=
  match x, y with
  | NaN, _ | _, NaN => false
  | Fin a, Fin b => match a ?= b with Lt => true | _ => false end
  | NInf, (Fin _ | PInf) => true
  | Fin _, PInf => true
  | _, _ => false
  end.

Definition fgt (x y : fnum) : bool := flt y x.

(** [x == y]; NaN is equal to nothing, itself included. *)
Definition feqb (x y : fnum) : bool :=
  match x, y with
  | Fin a, Fin b => Qeq_bool a b
  | PInf, PInf | NInf, NInf => true
  | _, _ => false
  end.

(** [x != y], the negation of [==]: true as soon as one side is NaN. *)
Definition fne (x y : fnum) : bool := negb (feqb x y).

Definition fle (x y : fnum) : bool := flt x y || feqb x y.

(** Python's own [/] on floats, unlike numpy's, raises ZeroDivisionError
    ([None]) on a zero divisor. *)
Definition py_truediv (x y : fnum) : option fnum :=
  if feqb y (Fin 0) then None else Some (fdiv x y).

Definition is_finite (x : fnum) : bool :=
  match x with Fin _ => true | _ => false end.

(** Equality of floats as values: the rationals up to [Qeq]. *)
Definition fsame (x y : fnum) : Prop :=
  match x, y with
  | Fin a, Fin b => a == b
  | PInf, PInf | NInf, NInf | NaN, NaN => True
  | _, _ => False
  end.

End Float.
Import Float.

Declare Scope float_scope.
Delimit Scope float_scope with F.
Infix "+" := fadd : float_scope.
Infix "-" := fsub : float_scope.
Infix "*" := fmul : float_scope.
Infix "/" := fdiv : float_scope.
Infix "<?" := flt : float_scope.
Infix ">?" := fgt : float_scope.

(** ** The pandas operations the program calls *)

Module Pandas.

(** [Series.dropna] on a float column. *)
Definition dropna (col : list fnum) : list fnum := filter notna col.

Definition fsum (col : list fnum) : fnum := fold_left fadd col (Fin 0).

Definition of_nat (n : nat) : fnum := Fin (inject_Z (Z.of_nat n)).

(** [Series.mean()], [skipna=True]: NaN on a column without a value. *)
Definition mean (col : list fnum) : fnum :=
  let v := dropna col in
  match v with
  | [] => NaN
  | _ => (fsum v / of_nat (length v))%F
  end.

Definition sq (x : fnum) : fnum := (x * x)%F.

Section Sqrt.

(** The square root on the rationals that numpy's [sqrt] stands for. *)
Variable sqrtQ : Q -> Q.

Definition fsqrt (x : fnum) : fnum :=
  match x with
  | Fin q => match q ?= 0 with Lt => NaN | _ => Fin (sqrtQ q) end
  | PInf => PInf
  | NInf | NaN => NaN
  end.

(** [Series.std()], [skipna=True], [ddof=1]: the sample standard deviation,
    NaN with fewer than two values. *)
Definition std (col : list fnum) : fnum :=
  let v := dropna col in
  let n := length v in
  if (n <=? 1)%nat then NaN
  else
    let avg := (fsum v / of_nat n)%F in
    fsqrt (fsum (map (fun x => sq (avg - x)%F) v) / of_nat (n - 1))%F.

End Sqrt.

(** Insertion sort, for [sort_values] and for the order statistics. *)
Section Sort.
Variable A : Type.
Variable le : A -> A -> bool.

Fixpoint insert (x : A) (l : list A) : list A :=
  match l with
  | [] => [x]
  | y :: t => if le x y then x :: l else y :: insert x t
  end.

Fixpoint sort (l : list A) : list A :=
  match l with
  | [] => []
  | x :: t => insert x (sort t)
  end.
End Sort.

(** [Series.quantile(q)], linear interpolation between the two order
    statistics around position [q * (n - 1)] of the values that are present. *)
Definition quantile (q : Q) (col : list fnum) : fnum :=
  let v := sort fle (dropna col) in
  let n := length v in
  match n with
  | O => NaN
  | S m =>
      let pos := q * inject_Z (Z.of_nat m) in
      let i := Z.to_nat (Qfloor pos) in
      let g := pos - inject_Z (Qfloor pos) in
      let lo := nth i v NaN in
      let hi := nth (Nat.min (S i) m) v NaN in
      (lo + (hi - lo) * Fin g)%F
  end.

(** [Series.ffill()]: a missing entry takes the last value before it. *)
Fixpoint ffill_from (last : fnum) (col : list fnum) : list fnum :=
  match col with
  | [] => []
  | x :: t => if isna x then last :: ffill_from last t else x :: ffill_from x t
  end.

Definition ffill (col : list fnum) : list fnum := ffill_from NaN col.

(** [Series.shift(1)]. *)
Definition shift (col : list fnum) : list fnum :=
  match col with
  | [] => []
  | _ => NaN :: removelast col
  end.

(** The default of [fill_method] in [Series.pct_change()]: pandas before 3.0
    forward-fills missing entries first ([Pad]), pandas 3.0 does not
    ([NoFill]). *)
Inductive fill_method : Type := Pad | NoFill.

(** [Series.pct_change()]: [data / data.shift(1) - 1]. *)
Definition pct_change (fm : fill_method) (col : list fnum) : list fnum :=
  let data := match fm with Pad => ffill col | NoFill => col end in
  map (fun xp => (fst xp / snd xp - Fin 1)%F) (combine data (shift data)).

End Pandas.
Import Pandas.

(** ** The data: rows of the CSV file and of the frames built from it *)

(** A cell of the frame [read_csv] returns: a float where the whole column
    parsed as numbers, the text of the field otherwise. *)
Inductive cell : Type :=
| CNum (x : fnum)
| CStr (s : string).

(** A row as read, after [to_datetime] has parsed the ['Gmt time'] column
    (a timestamp is its count of nanoseconds). *)
Record raw_row : Type := mk_raw {
  raw_time : Z;
  raw_open : cell;
  raw_high : cell;
  raw_low : cell;
  raw_close : cell;
  raw_volume : cell
}.

(** A row of the frame [load_and_clean_data] returns. *)
Record candle : Type := mk_candle {
  Gmt_time : Z;
  Open : fnum;
  High : fnum;
  Low : fnum;
  Close : fnum;
  Volume : fnum
}.

(** A row after [detect_outliers] has added its three columns. *)
Record scored : Type := mk_scored {
  scored_candle :> candle;
  Return : fnum;
  z_score : fnum;
  is_outlier : bool
}.

(** A row after [compute_guideline_deviation] has added its column. *)
Record annotated : Type := mk_annotated {
  annotated_scored :> scored;
  deviates_guideline : bool
}.

(** [Timestamp.isoformat()]: the ISO 8601 text of a timestamp, nanoseconds
    included, determines the timestamp; the text is represented by it. *)
Definition isoformat (t : Z) : Z := t.

(** ** data_loader.py *)

Section Annotator.

(** The float a text parses to under [pd.to_numeric], if any. *)
Variable str_to_float : string -> option fnum.

(** [pd.to_numeric(_, errors='coerce')] on one cell. *)
Definition to_numeric (c : cell) : fnum :=
  match c with
  | CNum x => x
  | CStr s => match str_to_float s with Some x => x | None => NaN end
  end.

(** Equality of cells as [drop_duplicates] sees it: by value, two missing
    cells being equal. *)
Definition float_same (x y : fnum) : bool :=
  match x, y with
  | NaN, NaN => true
  | _, _ => feqb x y
  end.

Definition cell_eqb (c d : cell) : bool :=
  match c, d with
  | CNum x, CNum y => float_same x y
  | CStr s, CStr t => String.eqb s t
  | _, _ => false
  end.

Definition raw_eqb (r s : raw_row) : bool :=
  Z.eqb (raw_time r) (raw_time s)
  && cell_eqb (raw_open r) (raw_open s)
  && cell_eqb (raw_high r) (raw_high s)
  && cell_eqb (raw_low r) (raw_low s)
  && cell_eqb (raw_close r) (raw_close s)
  && cell_eqb (raw_volume r) (raw_volume s).

(** [DataFrame.drop_duplicates()], [keep='first']: a row goes when a row
    before it is equal to it. *)
Fixpoint drop_duplicates_from (seen : list raw_row) (rows : list raw_row)
  : list raw_row :=
  match rows with
  | [] => []
  | r :: t =>
      if existsb (raw_eqb r) seen then drop_duplicates_from seen t
      else r :: drop_duplicates_from (r :: seen) t
  end.

Definition drop_duplicates (rows : list raw_row) : list raw_row :=
  drop_duplicates_from [] rows.

(** The loop over [numeric_cols] on one row. *)
Definition coerce (r : raw_row) : candle :=
  {| Gmt_time := raw_time r;
     Open := to_numeric (raw_open r);
     High := to_numeric (raw_high r);
     Low := to_numeric (raw_low r);
     Close := to_numeric (raw_close r);
     Volume := to_numeric (raw_volume r) |}.

Definition load_and_clean_data (csv : list raw_row) : list candle :=
  let data := drop_duplicates csv in
  let data := map coerce data in
  filter (fun row => fne (Volume row) (Fin 0)) data.

Variable sqrtQ : Q -> Q.
Variable fill : fill_method.

(** The frame with its ['Return'] column, before [dropna]. *)
Definition with_return (data : list candle) : list (candle * fnum) :=
  combine data (pct_change fill (map Close data)).

Definition detect_outliers (threshold : fnum) (data : list candle)
  : list scored :=
  let data := filter (fun rr => notna (snd rr)) (with_return data) in
  let mean_return := mean (map snd data) in
  let std_return := std sqrtQ (map snd data) in
  map (fun rr =>
         let z := ((snd rr - mean_return) / std_return)%F in
         {| scored_candle := fst rr;
            Return := snd rr;
            z_score := z;
            is_outlier := (fabs z >? threshold)%F |})
      data.

(** ** analysis.py *)

Definition compute_guideline_deviation (data : list scored)
  : list annotated :=
  let volume_min := quantile (5 # 100) (map (fun r : scored => Volume r) data) in
  let volume_max := quantile (95 # 100) (map (fun r : scored => Volume r) data) in
  let mean_return := mean (map Return data) in
  let std_return := std sqrtQ (map Return data) in
  let return_min := (mean_return - Fin 2 * std_return)%F in
  let return_max := (mean_return + Fin 2 * std_return)%F in
  map (fun row : scored =>
         {| annotated_scored := row;
            deviates_guideline :=
              ((Volume row <? volume_min) || (Volume row >? volume_max))%F
              || ((Return row <? return_min) || (Return row >? return_max))%F |})
      data.

End Annotator.

(** ** create_graph.py *)

(** The properties of a [Trade] node, as the dictionary [trade] holds them. *)
Module Trade.
Record t : Type := mk {
  trade_id : Z;
  timestamp : Z;
  open : fnum;
  high : fnum;
  low : fnum;
  close : fnum;
  volume : fnum;
  is_outlier : bool;
  deviates_guideline : bool
}.
End Trade.

(** One [session.execute_write] call: the transaction function and its
    arguments. *)
Inductive write : Type :=
| create_trade_node (trade : Trade.t)
| create_consecutive_relationship (trade_id1 trade_id2 : Z)
| create_similar_relationship (trade_id1 trade_id2 : Z) (similarity : fnum).

(** Python exceptions the script can meet. *)
Inductive exn : Type := IndexError | ZeroDivisionError.

(** A piece of the script: the writes it sends to the store, in order, and
    its value, or the exception that stopped it. *)
Definition script (A : Type) : Type := (list write * (A + exn))%type.

Definition ret {A : Type} (a : A) : script A := ([], inl a).

Definition raise {A : Type} (e : exn) : script A := ([], inr e).

Definition bind {A B : Type} (m : script A) (k : A -> script B) : script B :=
  match m with
  | (w, inl a) => let (w', r) := k a in (w ++ w', r)
  | (w, inr e) => (w, inr e)
  end.

Notation "x <- m ;; k" := (bind m (fun x => k))
  (at level 61, m at next level, right associativity).
Notation "m ;; k" := (bind m (fun _ => k))
  (at level 61, right associativity).

Definition execute_write (w : write) : script unit := ([w], inl tt).

(** A [for] loop over the items of a list. *)
Fixpoint for_each {A : Type} (items : list A) (body : A -> script unit)
  : script unit :=
  match items with
  | [] => ret tt
  | x :: rest => body x ;; for_each rest body
  end.

(** [range(a, b)]. *)
Definition range (a b : nat) : list nat := seq a (b - a).

(** [l[i]]. *)
Definition getitem {A : Type} (l : list A) (i : nat) : script A :=
  match nth_error l i with
  | Some x => ret x
  | None => raise IndexError
  end.

(** Python's [/] on two floats. *)
Definition truediv (x y : fnum) : script fnum :=
  match py_truediv x y with
  | Some q => ret q
  | None => raise ZeroDivisionError
  end.

(** *** 1. Trade nodes *)

Definition trade_of (row : annotated) : Trade.t :=
  let trade_timestamp := Gmt_time row in
  let trade_id := isoformat trade_timestamp in
  {| Trade.trade_id := trade_id;
     Trade.timestamp := isoformat trade_timestamp;
     Trade.open := Open row;
     Trade.high := High row;
     Trade.low := Low row;
     Trade.close := Close row;
     Trade.volume := Volume row;
     Trade.is_outlier := is_outlier row;
     Trade.deviates_guideline := deviates_guideline row |}.

Definition create_nodes (data : list annotated) : script unit :=
  for_each data (fun row => execute_write (create_trade_node (trade_of row))).

(** *** 2. Consecutive relationships *)

(** [data.sort_values(by="Gmt time")]. *)
Definition sort_values (data : list annotated) : list annotated :=
  sort (fun r s : annotated => (Gmt_time r <=? Gmt_time s)%Z) data.

Definition chronological_ids (data : list annotated) : list Z :=
  map (fun row : annotated => isoformat (Gmt_time row)) (sort_values data).

Definition create_consecutive (trade_ids : list Z) : script unit :=
  for_each (range 0 (length trade_ids - 1))
    (fun i =>
       a <- getitem trade_ids i ;;
       b <- getitem trade_ids (i + 1) ;;
       execute_write (create_consecutive_relationship a b)).

(** *** 3. SIMILAR relationships *)

Definition SIMILAR_THRESHOLD : fnum := Fin (5 # 10000).

(** The constant [1e-6] added to the difference. *)
Definition epsilon : fnum := Fin (1 # 1000000).

Definition trade_list_of (data : list annotated) : list (Z * fnum) :=
  map (fun row : annotated => (isoformat (Gmt_time row), Open row)) data.

(** The body of the inner loop. *)
Definition similar_body (threshold : fnum) (trade_list : list (Z * fnum))
  (i j : nat) : script unit :=
  ti <- getitem trade_list i ;;
  tj <- getitem trade_list j ;;
  let price_diff := fabs (snd ti - snd tj)%F in
  if (price_diff <? threshold)%F then
    similarity <- truediv (Fin 1) (price_diff + epsilon)%F ;;
    execute_write (create_similar_relationship (fst ti) (fst tj) similarity)
  else ret tt.

Definition create_similar (threshold : fnum) (trade_list : list (Z * fnum))
  : script unit :=
  for_each (range 0 (length trade_list))
    (fun i =>
       for_each (range (i + 1) (length trade_list))
         (fun j => similar_body threshold trade_list i j)).

(** *** The three Cypher queries, run against a store *)

(** The type of a relationship, with the property it carries. *)
Inductive rel_type : Type :=
| NEXT
| SIMILAR (similarity : fnum).

(** A relationship between two nodes, each known by its position in the
    store. *)
Record relationship : Type := mk_rel {
  rel_from : nat;
  rel_to : nat;
  rel_kind : rel_type
}.

(** The store: the [Trade] nodes in the order of their creation, and the
    relationships. *)
Record graph_store : Type := mk_store {
  trades : list Trade.t;
  relationships : list relationship
}.

Definition empty_store : graph_store :=
  {| trades := []; relationships := [] |}.

(** The positions, from [k] on, of the nodes with a given [trade_id]. *)
Fixpoint positions_from (k : nat) (nodes : list Trade.t) (id : Z) : list nat :=
  match nodes with
  | [] => []
  | t :: rest =>
      (if Z.eqb (Trade.trade_id t) id then [k] else [])
      ++ positions_from (S k) rest id
  end.

(** [MATCH (a:Trade {trade_id: $id})]. *)
Definition matching (store : graph_store) (id : Z) : list nat :=
  positions_from 0 (trades store) id.

(** [MATCH (a:Trade {...}), (b:Trade {...}) CREATE (a)-[...]->(b)]: one
    relationship for every pair of a node matched as [a] and a node matched
    as [b]. *)
Definition create_between (store : graph_store) (id1 id2 : Z)
  (kind : rel_type) : list relationship :=
  flat_map (fun i => map (fun j => {| rel_from := i; rel_to := j;
                                      rel_kind := kind |})
                         (matching store id2))
           (matching store id1).

(** What a write does to the store. *)
Definition run_write (store : graph_store) (w : write) : graph_store :=
  match w with
  | create_trade_node trade =>
      {| trades := trades store ++ [trade];
         relationships := relationships store |}
  | create_consecutive_relationship trade_id1 trade_id2 =>
      {| trades := trades store;
         relationships := relationships store
                          ++ create_between store trade_id1 trade_id2 NEXT |}
  | create_similar_relationship trade_id1 trade_id2 similarity =>
      {| trades := trades store;
         relationships := relationships store
                          ++ create_between store trade_id1 trade_id2
                               (SIMILAR similarity) |}
  end.

Definition run_writes (store : graph_store) (ws : list write) : graph_store :=
  fold_left run_write ws store.

(** *** The module as a whole, run on the rows of the CSV file *)

Section Program.

Variable str_to_float : string -> option fnum.
Variable sqrtQ : Q -> Q.
Variable fill : fill_method.

Definition annotate (csv : list raw_row) : list annotated :=
  let data := load_and_clean_data str_to_float csv in
  let data := detect_outliers sqrtQ fill (Fin 3) data in
  compute_guideline_deviation sqrtQ data.

Definition create_graph (csv : list raw_row) : script unit :=
  let data := annotate csv in
  create_nodes data ;;
  create_consecutive (chronological_ids data) ;;
  create_similar SIMILAR_THRESHOLD (trade_list_of data).

End Program.

(** ** visualization.py: [Chart.__init__] *)

(** The attributes [add_node] receives. *)
Module Attrs.
Record t : Type := mk {
  timestamp : Z;
  open : fnum;
  high : fnum;
  low : fnum;
  close : fnum;
  volume : fnum;
  is_outlier : bool;
  deviates_guideline : bool
}.
End Attrs.

(** A [networkx.DiGraph]: its nodes with their attributes, in insertion
    order (a node that [add_edge] had to create has none), and its edges. *)
Record DiGraph : Type := mk_graph {
  nodes : list (Z * option Attrs.t);
  edges : list (Z * Z)
}.

Definition has_node (G : DiGraph) (n : Z) : bool :=
  existsb (fun p => Z.eqb (fst p) n) (nodes G).

Definition has_edge (G : DiGraph) (u v : Z) : bool :=
  existsb (fun e => Z.eqb (fst e) u && Z.eqb (snd e) v) (edges G).

(** [G.add_node(n, **attrs)]: a new node, or new attributes for node [n]. *)
Definition add_node (G : DiGraph) (n : Z) (attrs : Attrs.t) : DiGraph :=
  if has_node G n then
    {| nodes := map (fun p => if Z.eqb (fst p) n then (n, Some attrs) else p)
                    (nodes G);
       edges := edges G |}
  else {| nodes := nodes G ++ [(n, Some attrs)]; edges := edges G |}.

Definition ensure_node (G : DiGraph) (n : Z) : DiGraph :=
  if has_node G n then G
  else {| nodes := nodes G ++ [(n, None)]; edges := edges G |}.

(** [G.add_edge(u, v)]: both ends become nodes if they were not, and the
    edge is there once. *)
Definition add_edge (G : DiGraph) (u v : Z) : DiGraph :=
  let G := ensure_node (ensure_node G u) v in
  if has_edge G u v then G
  else {| nodes := nodes G; edges := edges G ++ [(u, v)] |}.

Definition attrs_of (row : annotated) : Attrs.t :=
  {| Attrs.timestamp := Gmt_time row;
     Attrs.open := Open row;
     Attrs.high := High row;
     Attrs.low := Low row;
     Attrs.close := Close row;
     Attrs.volume := Volume row;
     Attrs.is_outlier := is_outlier row;
     Attrs.deviates_guideline := deviates_guideline row |}.

(** The loop [for i in range(len(trade_ids) - 1)] of the constructor;
    [None] is an IndexError. *)
Fixpoint add_next_edges (G : DiGraph) (trade_ids : list Z) (indices : list nat)
  : option DiGraph :=
  match indices with
  | [] => Some G
  | i :: rest =>
      match nth_error trade_ids i, nth_error trade_ids (i + 1) with
      | Some a, Some b => add_next_edges (add_edge G a b) trade_ids rest
      | _, _ => None
      end
  end.

Record Chart : Type := mk_chart {
  df : list annotated;
  G : DiGraph
}.

Definition Chart_init (data : list annotated) : option Chart :=
  let df := firstn 100 data in
  let G := {| nodes := []; edges := [] |} in
  let G := fold_left
             (fun G (row : annotated) =>
                add_node G (isoformat (Gmt_time row)) (attrs_of row))
             df G in
  let trade_ids := chronological_ids df in
  match add_next_edges G trade_ids (range 0 (length trade_ids - 1)) with
  | Some G => Some {| df := df; G := G |}
  | None => None
  end.

(** [Series.sum()] of a column of booleans: the number of [True]. *)
Definition sum_bool (col : list bool) : Z :=
  fold_right (fun (b : bool) acc => ((if b then 1 else 0) + acc)%Z) 0%Z col.

(** [Chart.bar_chart]: the counts [status_counts] the bars show, in the
    order of the keys. *)
Record status_counts : Type := mk_counts {
  Outlier : Z;
  Guideline_Deviation : Z;
  Normal : Z
}.

Definition bar_chart (self : Chart) : status_counts :=
  {| Outlier := sum_bool (map (fun r : annotated => is_outlier r) (df self));
     Guideline_Deviation := sum_bool (map deviates_guideline (df self));
     Normal := (Z.of_nat (length (df self))
                - sum_bool (map (fun r : annotated => is_outlier r) (df self))
                - sum_bool (map deviates_guideline (df self)))%Z |}.

(** The number of rows that satisfy [p]. *)
Definition count_rows (p : annotated -> bool) (rows : list annotated) : Z :=
  Z.of_nat (length (filter p rows)).

(** *** [plot_guideline_scatter] *)

Inductive colour : Type := red | blue.

(** What the figure shows: the points [(Return, Volume)] with their colour,
    the two horizontal lines and the two vertical lines. *)
Record scatter_figure : Type := mk_scatter {
  points : list (fnum * fnum * colour);
  volume_lines : fnum * fnum;
  return_lines : fnum * fnum
}.

Definition plot_guideline_scatter (sqrtQ : Q -> Q) (data : list annotated)
  : scatter_figure :=
  let volume_min := quantile (25 # 100) (map (fun r : annotated => Volume r) data) in
  let volume_max := quantile (75 # 100) (map (fun r : annotated => Volume r) data) in
  let mean_return := mean (map (fun r : annotated => Return r) data) in
  let std_return := std sqrtQ (map (fun r : annotated => Return r) data) in
  let return_min := (mean_return - Fin 2 * std_return)%F in
  let return_max := (mean_return + Fin 2 * std_return)%F in
  let colors := map (fun r : annotated =>
                       if deviates_guideline r then red else blue) data in
  {| points := combine (combine (map (fun r : annotated => Return r) data)
                                (map (fun r : annotated => Volume r) data))
                       colors;
     volume_lines := (volume_min, volume_max);
     return_lines := (return_min, return_max) |}.

(** ** Vocabulary of the statements *)

(** The pairs [(i, j)] the two nested loops of part 3 go through, in order. *)
Definition pairs (n : nat) : list (nat * nat) :=
  flat_map (fun i => map (pair i) (range (i + 1) n)) (range 0 n).

(** The writes a piece of script sends, and how it ends. *)
Definition writes {A : Type} (m : script A) : list write := fst m.
Definition outcome {A : Type} (m : script A) : A + exn := snd m.

(** The NEXT relationships a sequence of writes asks for, as pairs of
    [trade_id]s. *)
Definition next_edges (ws : list write) : list (Z * Z) :=
  flat_map (fun w => match w with
                     | create_consecutive_relationship a b => [(a, b)]
                     | _ => []
                     end) ws.

(** The pairs of neighbours of a list. *)
Definition consecutive_pairs (ids : list Z) : list (Z * Z) :=
  combine ids (tl ids).

(** The targets of the edges that leave [x], the sources of those that
    reach it. *)
Definition next_of (edges : list (Z * Z)) (x : Z) : list Z :=
  map snd (filter (fun e => Z.eqb (fst e) x) edges).

Definition prev_of (edges : list (Z * Z)) (x : Z) : list Z :=
  map fst (filter (fun e => Z.eqb (snd e) x) edges).

(** The nodes met from [x] on, going along the edge that leaves the current
    node as long as there is exactly one, for at most [fuel] steps. *)
Fixpoint follow (fuel : nat) (edges : list (Z * Z)) (x : Z) : list Z :=
  x :: match fuel with
       | O => []
       | S fuel' =>
           match next_of edges x with
           | [y] => follow fuel' edges y
           | _ => []
           end
       end.

(** The [trade_id]s of the nodes a sequence of writes creates. *)
Definition node_ids (ws : list write) : list Z :=
  flat_map (fun w => match w with
                     | create_trade_node trade => [Trade.trade_id trade]
                     | _ => []
                     end) ws.

(** The edges [E] over the nodes [ids] are one chain in time order: one edge
    fewer than nodes, every edge from a node to the node with the next-larger
    timestamp, at most one edge out of a node and one into it, and the walk
    along the edges from the earliest node meets every node exactly once and
    then stops. *)
Definition chain_from_earliest (ids : list Z) (E : list (Z * Z)) : Prop :=
  length E = (length ids - 1)%nat
  /\ (forall a b, In (a, b) E ->
        (a < b)%Z /\ forall c, In c ids -> ~ (a < c < b)%Z)
  /\ (forall x, In x ids ->
        (length (next_of E x) <= 1)%nat /\ (length (prev_of E x) <= 1)%nat)
  /\ exists first,
       In first ids
       /\ (forall c, In c ids -> (first <= c)%Z)
       /\ forall fuel, (length ids <= fuel)%nat ->
            Permutation (follow fuel E first) ids.

(** ** Instances used on concrete inputs *)

(** A reader of plain decimal numerals ([-12.5], [3], [0.001]); any other
    text does not parse. *)
Definition digit_of (c : ascii) : option Z :=
  let n := nat_of_ascii c in
  if ((48 <=? n) && (n <=? 57))%nat then Some (Z.of_nat (n - 48)) else None.

(** Reads [s] as a run of digits after the value [acc]; [scale] counts in
    powers of ten the digits read. *)
Fixpoint read_digits (s : string) (acc : Z) (scale : positive)
  : option (Z * positive) :=
  match s with
  | EmptyString => Some (acc, scale)
  | String c rest =>
      match digit_of c with
      | Some d => read_digits rest (10 * acc + d) (10 * scale)
      | None => None
      end
  end.

Fixpoint split_at_dot (s : string) : string * option string :=
  match s with
  | EmptyString => (EmptyString, None)
  | String c rest =>
      if Ascii.eqb c "."%char then (EmptyString, Some rest)
      else let (a, b) := split_at_dot rest in (String c a, b)
  end.

Definition unsigned_decimal (s : string) : option Q :=
  let (whole, frac) := split_at_dot s in
  match whole with
  | EmptyString => None
  | _ =>
      match read_digits whole 0 1 with
      | None => None
      | Some (w, _) =>
          match frac with
          | None => Some (inject_Z w)
          | Some f =>
              match read_digits f w 1 with
              | Some (n, scale) => Some (n # scale)
              | None => None
              end
          end
      end
  end.

Definition decimal_of_string (s : string) : option fnum :=
  match s with
  | String "-"%char rest =>
      match unsigned_decimal rest with
      | Some q => Some (Fin (- q))
      | None => None
      end
  | _ =>
      match unsigned_decimal s with
      | Some q => Some (Fin q)
      | None => None
      end
  end.

(** A square root to six decimals: of [n/d] it is the integer square root
    of [n * d * 10^12] over [d * 10^6]. *)
Definition sqrt_micro (q : Q) : Q :=
  Z.sqrt (Qnum q * Zpos (Qden q) * 1000000000000) # (Qden q * 1000000).

(** A row of numeric cells. *)
Definition numeric_row (t : Z) (o h l c v : Q) : raw_row :=
  {| raw_time := t;
     raw_open := CNum (Fin o); raw_high := CNum (Fin h);
     raw_low := CNum (Fin l); raw_close := CNum (Fin c);
     raw_volume := CNum (Fin v) |}.

(** Three rows, the last two at the same minute with different prices. *)
Definition csv_shared_time : list raw_row :=
  [ numeric_row 0 (11 # 10) (11 # 10) (11 # 10) (11 # 10) 100;
    numeric_row 60 (12 # 10) (12 # 10) (12 # 10) (12 # 10) 100;
    numeric_row 60 (13 # 10) (13 # 10) (13 # 10) (13 # 10) 100 ].

(** Five numeric rows a minute apart, the third without volume. *)
Definition csv_sample : list raw_row :=
  [ numeric_row 0 (11000 # 10000) (11004 # 10000) (10998 # 10000) (11002 # 10000) 100;
    numeric_row 60 (11002 # 10000) (11006 # 10000) (11001 # 10000) (11005 # 10000) 120;
    numeric_row 120 (11005 # 10000) (11007 # 10000) (11000 # 10000) (11001 # 10000) 0;
    numeric_row 180 (11004 # 10000) (11012 # 10000) (11003 # 10000) (11010 # 10000) 90;
    numeric_row 240 (11010 # 10000) (11030 # 10000) (11009 # 10000) (11025 # 10000) 300 ].

(** The annotated frame of a CSV file, read with the instances above. *)
Definition annotated_rows (fill : fill_method) (csv : list raw_row)
  : list annotated :=
  annotate decimal_of_string sqrt_micro fill csv.

(** The frames of [csv_sample] after cleaning and after [detect_outliers]. *)
Definition sample_clean : list candle :=
  load_and_clean_data decimal_of_string csv_sample.

Definition sample_scored : list scored :=
  detect_outliers sqrt_micro Pad (Fin 3) sample_clean.

Definition blank_candle : candle :=
  {| Gmt_time := 0; Open := NaN; High := NaN; Low := NaN; Close := NaN;
     Volume := NaN |}.

Definition blank_scored : scored :=
  {| scored_candle := blank_candle; Return := NaN; z_score := NaN;
     is_outlier := false |}.

Definition blank_annotated : annotated :=
  {| annotated_scored := blank_scored; deviates_guideline := false |}.

(** A column paired with its shift, by recursion on the column: each entry
    with the one before it, the first with [prev]. *)
Fixpoint with_previous (prev : fnum) (col : list fnum) : list (fnum * fnum) :=
  match col with
  | [] => []
  | x :: t => (x, prev) :: with_previous x t
  end.

(** Three numeric rows that are not in time order in the file. *)
Definition csv_unsorted : list raw_row :=
  [ numeric_row 120 (12 # 10) (12 # 10) (12 # 10) (12 # 10) 100;
    numeric_row 60 (11 # 10) (11 # 10) (11 # 10) (11 # 10) 100;
    numeric_row 180 (13 # 10) (13 # 10) (13 # 10) (13 # 10) 100 ].

(** Writes that create a node, and the [trade_id]s an edge write matches. *)
Definition is_node_write (w : write) : bool :=
  match w with create_trade_node _ => true | _ => false end.

Definition endpoints (w : write) : list Z :=
  match w with
  | create_trade_node _ => []
  | create_consecutive_relationship a b => [a; b]
  | create_similar_relationship a b _ => [a; b]
  end.

(** The sum of a list of rationals. *)
Definition sumQ (qs : list Q) : Q := fold_right Qplus 0 qs.

(** Four rows whose close doubles every minute: all returns are 1. *)
Definition csv_doubling : list raw_row :=
  [ numeric_row 0 1 1 1 1 100;
    numeric_row 60 2 2 2 2 100;
    numeric_row 120 4 4 4 4 100;
    numeric_row 180 8 8 8 8 100 ].

(** A row of a file whose ['Close'] and ['Volume'] columns were read as
    text. *)
Definition text_row (t : Z) (o h l : Q) (c v : string) : raw_row :=
  {| raw_time := t;
     raw_open := CNum (Fin o); raw_high := CNum (Fin h);
     raw_low := CNum (Fin l); raw_close := CStr c; raw_volume := CStr v |}.

(** Four rows, the volume of the second not a number. *)
Definition csv_missing_volume : list raw_row :=
  [ text_row 0 1 1 1 "1.0" "100";
    text_row 60 1 2 1 "2.0" "n/a";
    text_row 120 2 3 2 "3.0" "90";
    text_row 180 3 4 3 "4.0" "110" ].

(** The same with the volume of the first row not a number. *)
Definition csv_first_missing_volume : list raw_row :=
  [ text_row 0 1 1 1 "1.0" "n/a";
    text_row 60 1 2 1 "2.0" "100";
    text_row 120 2 3 2 "3.0" "90" ].

(** Four rows, the close of the second not a number. *)
Definition csv_missing_close : list raw_row :=
  [ text_row 0 1 1 1 "1.0" "100";
    text_row 60 1 2 1 "n/a" "100";
    text_row 120 2 3 2 "2.0" "100";
    text_row 180 3 4 3 "3.0" "100" ].

(** Four rows; the second and the third differ only in how the same close
    is written.  The dash of the last row is what keeps the two columns
    text when the file is read. *)
Definition csv_two_spellings : list raw_row :=
  [ text_row 0 1 1 1 "1.0" "100";
    text_row 60 1 2 1 "2.0" "100";
    text_row 60 1 2 1 "2.00" "100";
    text_row 120 2 2 2 "-" "-" ].

(** Three trades, the second without open. *)
Definition trades_with_missing_open : list (Z * fnum) :=
  [ (60%Z, Fin (11000 # 10000)); (120%Z, NaN); (180%Z, Fin (11002 # 10000)) ].

(** Twelve rows a minute apart: the close stays at 1 and doubles in the
    last row, so that of the eleven returns ten are 0 and one is 1. *)
Definition csv_one_jump : list raw_row :=
  map (fun k => numeric_row (60 * Z.of_nat k) 1 1 1 1 100) (seq 0 11)
  ++ [ numeric_row 660 1 2 1 2 100 ].

(** The rows that carry both flags, and those that carry none. *)
Definition both_flags (r : annotated) : bool :=
  is_outlier r && deviates_guideline r.

Definition no_flag (r : annotated) : bool :=
  negb (is_outlier r) && negb (deviates_guideline r).

(** The chart of a frame, an empty one had the constructor failed. *)
Definition chart_of (data : list annotated) : Chart :=
  match Chart_init data with
  | Some self => self
  | None => {| df := []; G := {| nodes := []; edges := [] |} |}
  end.

(** Three rows, the third a repetition of the first. *)
Definition csv_repeated : list raw_row :=
  [ numeric_row 0 1 1 1 1 100;
    numeric_row 60 1 2 1 2 100;
    numeric_row 0 1 1 1 1 100 ].

(** The number of nodes of a store with a given [trade_id]. *)
Definition count_id (nodes : list Trade.t) (id : Z) : nat :=
  length (filter (fun t => Z.eqb (Trade.trade_id t) id) nodes).

(** Every relationship of the store joins two of its nodes. *)
Definition well_formed (store : graph_store) : Prop :=
  Forall (fun r => (rel_from r < length (trades store))%nat
                   /\ (rel_to r < length (trades store))%nat)
         (relationships store).

(** The relationships a write asks for, none for a node write. *)
Definition created_by (store : graph_store) (w : write) : list relationship :=
  match w with
  | create_trade_node _ => []
  | create_consecutive_relationship a b => create_between store a b NEXT
  | create_similar_relationship a b s => create_between store a b (SIMILAR s)
  end.

(** The number of relationships a write adds to a store with the nodes
    [nodes]: one for each pair of nodes that carry its two ids. *)
Definition pair_count (nodes : list Trade.t) (w : write) : nat :=
  match endpoints w with
  | [a; b] => count_id nodes a * count_id nodes b
  | _ => 0
  end.

(** The order of [fle] on the rationals. *)
Definition leq (a b : Q) : bool := fle (Fin a) (Fin b).

(** The value at fraction [q] of the line through the points of a sorted
    list of rationals. *)
Definition interpolate (s : list Q) (q : Q) : Q :=
  let pos := q * inject_Z (Z.of_nat (length s - 1)) in
  let i := Z.to_nat (Qfloor pos) in
  let g := pos - inject_Z (Qfloor pos) in
  nth i s 0
  + (nth (Nat.min (S i) (length s - 1)) s 0 + - nth i s 0) * g.

(** The square root to six decimals rounded up instead of down. *)
Definition sqrt_micro_up (q : Q) : Q := sqrt_micro q + (1 # 1000000).

(** The length of a list as a rational. *)
Definition count (A : Type) (l : list A) : Q :=
  inject_Z (Z.of_nat (length l)).

(** Lines 30 to 32 of data_loader.py on one row: the z-score of its return
    against a mean and a standard deviation, and the flag. *)
Definition score (mean_return std_return threshold : fnum)
  (rr : candle * fnum) : scored :=
  let z := ((snd rr - mean_return) / std_return)%F in
  {| scored_candle := fst rr;
     Return := snd rr;
     z_score := z;
     is_outlier := (fabs z >? threshold)%F |}.

(** * Properties *)

(** ** The script monad *)

Lemma bind_ok {A B : Type} (m : script A) (k : A -> script B) (a : A) :
  outcome m = inl a ->
  bind m k = (writes m ++ writes (k a), outcome (k a)).
Proof.
  destruct m as [w [a'|e]]; unfold outcome, writes; simpl; intros H.
  - injection H as ->. destruct (k a); reflexivity.
  - discriminate.
Qed.

Lemma for_each_ok {A : Type} (items : list A) (body : A -> script unit) :
  (forall x, In x items -> outcome (body x) = inl tt) ->
  for_each items body = (flat_map (fun x => writes (body x)) items, inl tt).
Proof.
  induction items as [|x rest IH]; intros H; simpl.
  - reflexivity.
  - rewrite (bind_ok (body x) _ (a := tt)) by (apply H; now left).
    rewrite IH by (intros y Hy; apply H; now right).
    reflexivity.
Qed.

Lemma getitem_ok {A : Type} (l : list A) (i : nat) (x : A) :
  nth_error l i = Some x -> getitem l i = ret x.
Proof. unfold getitem; now intros ->. Qed.

Lemma in_range (a b i : nat) : In i (range a b) <-> (a <= i < b)%nat.
Proof. unfold range; rewrite in_seq; lia. Qed.

Lemma in_pairs (n i j : nat) : In (i, j) (pairs n) <-> (i < j < n)%nat.
Proof.
  unfold pairs; rewrite in_flat_map; split.
  - intros [k [Hk Hin]]. apply in_map_iff in Hin as [j' [Heq Hj]].
    injection Heq as -> ->. apply in_range in Hk, Hj. lia.
  - intros H. exists i; split; [apply in_range; lia|].
    apply in_map, in_range; lia.
Qed.

Lemma NoDup_range (a b : nat) : NoDup (range a b).
Proof. apply seq_NoDup. Qed.

Lemma NoDup_pairs (n : nat) : NoDup (pairs n).
Proof.
  unfold pairs. generalize (range 0 n) (NoDup_range 0 n).
  induction l as [|i l IH]; intros Hnd; simpl; [constructor|].
  inversion_clear Hnd as [|? ? Hi Hl].
  apply NoDup_app.
  - apply Finite.Injective_map_NoDup; [|apply NoDup_range].
    intros x y Hxy; now injection Hxy.
  - now apply IH.
  - intros [a b] Ha Hb. apply in_map_iff in Ha as [j [Heq _]].
    injection Heq as <- _.
    apply in_flat_map in Hb as [k [Hk Hb]].
    apply in_map_iff in Hb as [j' [Heq' _]]. injection Heq' as <- _.
    contradiction.
Qed.

(** ** Floats *)

Lemma flt_fabs_finite (x thr : fnum) :
  (fabs x <? thr)%F = true -> exists d, fabs x = Fin d /\ 0 <= d.
Proof.
  destruct x as [q| | |]; simpl; try (destruct thr; discriminate).
  intros _. exists (Qabs q); split; [reflexivity|apply Qabs_nonneg].
Qed.

Lemma feqb_pos (q : Q) : 0 < q -> feqb (Fin q) (Fin 0) = false.
Proof.
  intros H; simpl. destruct (Qeq_bool q 0) eqn:E; [|reflexivity].
  apply Qeq_bool_eq in E. lra.
Qed.

Lemma fdiv_pos (a b : Q) : 0 < b -> (Fin a / Fin b)%F = Fin (a / b).
Proof.
  intros H; simpl. apply Qgt_alt in H. now rewrite H.
Qed.

Lemma truediv_pos (a b : Q) : 0 < b -> truediv (Fin a) (Fin b) = ret (Fin (a / b)).
Proof.
  intros H; unfold truediv, py_truediv.
  now rewrite feqb_pos, fdiv_pos.
Qed.

(** ** SIMILAR relationships (part 3 of create_graph.py) *)

Lemma similar_body_spec (threshold : fnum) (trade_list : list (Z * fnum))
  (i j : nat) (a b : Z) (x y : fnum) :
  nth_error trade_list i = Some (a, x) ->
  nth_error trade_list j = Some (b, y) ->
  if (fabs (x - y) <? threshold)%F then
    exists d, fabs (x - y)%F = Fin d /\ 0 < 1 / (d + (1 # 1000000)) /\
      similar_body threshold trade_list i j =
        ([create_similar_relationship a b (Fin (1 / (d + (1 # 1000000))))], inl tt)
  else similar_body threshold trade_list i j = ([], inl tt).
Proof.
  intros Hi Hj. unfold similar_body.
  rewrite (getitem_ok _ _ Hi), (getitem_ok _ _ Hj); simpl.
  destruct (fabs (x - y) <? threshold)%F eqn:E; [|reflexivity].
  destruct (flt_fabs_finite _ _ E) as [d [Hd Hpos]].
  exists d. rewrite Hd. simpl fadd.
  assert (Hden : 0 < d + (1 # 1000000)) by lra.
  split; [reflexivity|split].
  - apply Qlt_shift_div_l; lra.
  - rewrite truediv_pos by exact Hden. reflexivity.
Qed.

Lemma similar_body_ok (threshold : fnum) (trade_list : list (Z * fnum))
  (i j : nat) :
  (i < length trade_list)%nat -> (j < length trade_list)%nat ->
  outcome (similar_body threshold trade_list i j) = inl tt.
Proof.
  intros Hi Hj.
  destruct (nth_error trade_list i) as [[a x]|] eqn:Ei;
    [|apply nth_error_None in Ei; lia].
  destruct (nth_error trade_list j) as [[b y]|] eqn:Ej;
    [|apply nth_error_None in Ej; lia].
  pose proof (similar_body_spec threshold trade_list i j Ei Ej) as H.
  destruct (fabs (x - y) <? threshold)%F.
  - destruct H as [d [_ [_ ->]]]. reflexivity.
  - now rewrite H.
Qed.

Lemma flat_map_flat_map {A B C : Type} (f : A -> list B) (g : B -> list C)
  (l : list A) :
  flat_map g (flat_map f l) = flat_map (fun x => flat_map g (f x)) l.
Proof.
  induction l as [|x l IH]; simpl; [reflexivity|].
  now rewrite flat_map_app, IH.
Qed.

Lemma flat_map_ext_on {A B : Type} (f g : A -> list B) (l : list A) :
  (forall x, In x l -> f x = g x) -> flat_map f l = flat_map g l.
Proof.
  induction l as [|x l IH]; intros H; simpl; [reflexivity|].
  rewrite (H x) by now left. rewrite IH; [reflexivity|].
  intros y Hy; apply H; now right.
Qed.

Lemma create_similar_trace (threshold : fnum) (trade_list : list (Z * fnum)) :
  create_similar threshold trade_list =
    (flat_map (fun p => writes (similar_body threshold trade_list (fst p) (snd p)))
       (pairs (length trade_list)), inl tt).
Proof.
  unfold create_similar.
  assert (Hin : forall i, In i (range 0 (length trade_list)) ->
    for_each (range (i + 1) (length trade_list))
      (fun j => similar_body threshold trade_list i j) =
    (flat_map (fun j => writes (similar_body threshold trade_list i j))
       (range (i + 1) (length trade_list)), inl tt)).
  { intros i Hi. apply for_each_ok. intros j Hj.
    apply in_range in Hi, Hj. apply similar_body_ok; lia. }
  rewrite for_each_ok by (intros i Hi; now rewrite (Hin i Hi)).
  f_equal. unfold pairs. rewrite flat_map_flat_map.
  apply flat_map_ext_on. intros i Hi. rewrite (Hin i Hi). unfold writes at 1; simpl.
  rewrite !flat_map_concat_map, map_map. reflexivity.
Qed.

(** C1.  The loops of part 3 end without an exception, and their writes are
    those of the iterations [(i, j)], [i < j], each pair taken once, in
    order.  The iteration [(i, j)] sends one SIMILAR relationship from
    [trade_list[i]] to [trade_list[j]] when [|open_i - open_j| < threshold]
    and nothing otherwise; the relationship carries
    [1 / (|open_i - open_j| + 1e-6)], a finite float above zero. *)
Theorem similar_edge_iff_below_threshold (threshold : fnum)
  (trade_list : list (Z * fnum)) :
  create_similar threshold trade_list =
    (flat_map (fun p => writes (similar_body threshold trade_list (fst p) (snd p)))
       (pairs (length trade_list)), inl tt)
  /\ NoDup (pairs (length trade_list))
  /\ (forall i j, In (i, j) (pairs (length trade_list)) <->
                  (i < j < length trade_list)%nat)
  /\ forall i j a b x y,
      nth_error trade_list i = Some (a, x) ->
      nth_error trade_list j = Some (b, y) ->
      if (fabs (x - y) <? threshold)%F then
        exists d, fabs (x - y)%F = Fin d /\ 0 < 1 / (d + (1 # 1000000)) /\
          similar_body threshold trade_list i j =
            ([create_similar_relationship a b (Fin (1 / (d + (1 # 1000000))))],
             inl tt)
      else similar_body threshold trade_list i j = ([], inl tt).
Proof.
  split; [apply create_similar_trace|].
  split; [apply NoDup_pairs|].
  split; [intros i j; apply in_pairs|].
  intros i j a b x y. apply similar_body_spec.
Qed.

Lemma similar_edge_iff_below_threshold_witness :
  exists d,
    fabs (Fin (11002 # 10000) - Fin (11004 # 10000))%F = Fin d
    /\ 0 < 1 / (d + (1 # 1000000))
    /\ similar_body SIMILAR_THRESHOLD
         (trade_list_of (annotated_rows Pad csv_sample)) 0 1 =
       ([create_similar_relationship 60 180 (Fin (1 / (d + (1 # 1000000))))],
        inl tt).
Proof.
  destruct (similar_edge_iff_below_threshold SIMILAR_THRESHOLD
              (trade_list_of (annotated_rows Pad csv_sample)))
    as [_ [_ [_ H]]].
  specialize (H 0%nat 1%nat 60%Z 180%Z
                (Fin (11002 # 10000)) (Fin (11004 # 10000))).
  assert (H0 : nth_error (trade_list_of (annotated_rows Pad csv_sample)) 0
               = Some (60%Z, Fin (11002 # 10000)))
    by (vm_compute; reflexivity).
  assert (H1 : nth_error (trade_list_of (annotated_rows Pad csv_sample)) 1
               = Some (180%Z, Fin (11004 # 10000)))
    by (vm_compute; reflexivity).
  exact (H H0 H1).
Defined.

(** ** Sorting *)

Lemma insert_perm {A : Type} (le : A -> A -> bool) (x : A) (l : list A) :
  Permutation (insert le x l) (x :: l).
Proof.
  induction l as [|y t IH]; simpl; [reflexivity|].
  destruct (le x y); [reflexivity|].
  rewrite IH. apply perm_swap.
Qed.

Lemma sort_perm {A : Type} (le : A -> A -> bool) (l : list A) :
  Permutation (sort le l) l.
Proof.
  induction l as [|x t IH]; simpl; [reflexivity|].
  rewrite insert_perm. now constructor.
Qed.

Lemma insert_map {A B : Type} (f : A -> B) (le : B -> B -> bool) (x : A)
  (l : list A) :
  map f (insert (fun a b => le (f a) (f b)) x l) = insert le (f x) (map f l).
Proof.
  induction l as [|y t IH]; simpl; [reflexivity|].
  destruct (le (f x) (f y)); simpl; [reflexivity|now rewrite IH].
Qed.

Lemma sort_map {A B : Type} (f : A -> B) (le : B -> B -> bool) (l : list A) :
  map f (sort (fun a b => le (f a) (f b)) l) = sort le (map f l).
Proof.
  induction l as [|x t IH]; simpl; [reflexivity|].
  now rewrite insert_map, IH.
Qed.

Lemma insert_sorted (x : Z) (l : list Z) :
  Sorted Z.le l -> Sorted Z.le (insert Z.leb x l).
Proof.
  induction 1 as [|y t Ht IH Hy]; simpl.
  - repeat constructor.
  - destruct (Z.leb_spec x y) as [Hle|Hgt].
    + repeat constructor; assumption.
    + constructor; [exact IH|].
      destruct t as [|z t']; simpl.
      * constructor; lia.
      * inversion_clear Hy. destruct (Z.leb_spec x z); constructor; lia.
Qed.

Lemma sort_sorted (l : list Z) : StronglySorted Z.le (sort Z.leb l).
Proof.
  apply Sorted_StronglySorted; [intros a b c; apply Z.le_trans|].
  induction l as [|x t IH]; simpl; [constructor|now apply insert_sorted].
Qed.

Lemma sorted_nodup_strict (l : list Z) :
  StronglySorted Z.le l -> NoDup l -> StronglySorted Z.lt l.
Proof.
  induction 1 as [|x t Ht IH Hx]; intros Hnd; [constructor|].
  inversion_clear Hnd as [|? ? Hnotin Hnd'].
  constructor; [now apply IH|].
  rewrite Forall_forall in *. intros y Hy.
  assert (x <> y) by (intros ->; contradiction).
  specialize (Hx y Hy). lia.
Qed.

Lemma chronological_ids_sort (data : list annotated) :
  chronological_ids data =
    sort Z.leb (map (fun r : annotated => Gmt_time r) data).
Proof.
  unfold chronological_ids, sort_values, isoformat.
  apply (sort_map (fun r : annotated => Gmt_time r) Z.leb).
Qed.

(** ** NEXT relationships (part 2 of create_graph.py) *)

Lemma consecutive_by_index (ids : list Z) :
  flat_map (fun i =>
              match nth_error ids i, nth_error ids (i + 1) with
              | Some a, Some b => [(a, b)]
              | _, _ => []
              end) (range 0 (length ids - 1))
  = consecutive_pairs ids.
Proof.
  unfold range, consecutive_pairs. rewrite Nat.sub_0_r.
  induction ids as [|x t IH]; [reflexivity|].
  destruct t as [|y t']; [reflexivity|].
  replace (length (x :: y :: t') - 1)%nat with (S (length (y :: t') - 1))
    by (simpl; lia).
  rewrite <- cons_seq, <- seq_shift. simpl flat_map at 1.
  rewrite flat_map_concat_map, map_map, <- flat_map_concat_map.
  simpl tl. simpl combine. f_equal. exact IH.
Qed.

Lemma map_of_flat_map {A B C : Type} (f : B -> C) (g : A -> list B)
  (l : list A) :
  map f (flat_map g l) = flat_map (fun x => map f (g x)) l.
Proof.
  induction l as [|x l IH]; simpl; [reflexivity|].
  now rewrite map_app, IH.
Qed.

Lemma create_consecutive_trace (ids : list Z) :
  create_consecutive ids =
    (map (fun e => create_consecutive_relationship (fst e) (snd e))
         (consecutive_pairs ids), inl tt).
Proof.
  unfold create_consecutive.
  assert (Hbody : forall i, In i (range 0 (length ids - 1)) ->
    (a <- getitem ids i ;; b <- getitem ids (i + 1) ;;
     execute_write (create_consecutive_relationship a b)) =
    (map (fun e => create_consecutive_relationship (fst e) (snd e))
       match nth_error ids i, nth_error ids (i + 1) with
       | Some a, Some b => [(a, b)]
       | _, _ => []
       end, inl tt)).
  { intros i Hi. apply in_range in Hi.
    destruct (nth_error ids i) as [a|] eqn:Ea;
      [|apply nth_error_None in Ea; lia].
    destruct (nth_error ids (i + 1)) as [b|] eqn:Eb;
      [|apply nth_error_None in Eb; lia].
    rewrite (getitem_ok _ _ Ea), (getitem_ok _ _ Eb). reflexivity. }
  rewrite for_each_ok by (intros i Hi; now rewrite (Hbody i Hi)).
  f_equal. rewrite <- consecutive_by_index, map_of_flat_map.
  apply flat_map_ext_on. intros i Hi. now rewrite (Hbody i Hi).
Qed.

Lemma consecutive_pairs_cons (x y : Z) (t : list Z) :
  consecutive_pairs (x :: y :: t) = (x, y) :: consecutive_pairs (y :: t).
Proof. reflexivity. Qed.

Lemma consecutive_pairs_length (ids : list Z) :
  length (consecutive_pairs ids) = (length ids - 1)%nat.
Proof.
  unfold consecutive_pairs. rewrite length_combine.
  destruct ids; cbn [length tl]; lia.
Qed.

Lemma in_consecutive_pairs (ids : list Z) (a b : Z) :
  In (a, b) (consecutive_pairs ids) -> In a ids /\ In b ids.
Proof.
  unfold consecutive_pairs. intros H. split.
  - eapply in_combine_l; eassumption.
  - apply in_combine_r in H. destruct ids; [contradiction|now right].
Qed.

Lemma strict_sorted_NoDup (l : list Z) : StronglySorted Z.lt l -> NoDup l.
Proof.
  induction 1 as [|x t Ht IH Hx]; constructor; [|exact IH].
  intros Hin. rewrite Forall_forall in Hx. specialize (Hx x Hin). lia.
Qed.

Lemma consecutive_pairs_next_larger (ids : list Z) :
  StronglySorted Z.lt ids ->
  forall a b, In (a, b) (consecutive_pairs ids) ->
    (a < b)%Z /\ forall c, In c ids -> ~ (a < c < b)%Z.
Proof.
  induction 1 as [|x t Ht IH Hx]; intros a b Hin; [contradiction|].
  destruct t as [|y t']; [contradiction|].
  rewrite consecutive_pairs_cons in Hin. rewrite Forall_forall in Hx.
  destruct Hin as [Heq|Hin].
  - injection Heq as <- <-. split; [apply Hx; now left|].
    inversion_clear Ht as [|? ? _ Hy]. rewrite Forall_forall in Hy.
    intros c [<-|[<-|Hc]]; try lia. specialize (Hy c Hc). lia.
  - destruct (IH a b Hin) as [Hab Hbetween]. split; [exact Hab|].
    intros c [<-|Hc]; [|now apply Hbetween].
    apply in_consecutive_pairs in Hin as [Ha _]. specialize (Hx a Ha). lia.
Qed.

Lemma next_of_notin (l l' : list Z) (x : Z) :
  ~ In x l -> next_of (combine l l') x = [].
Proof.
  revert l'. induction l as [|y t IH]; intros l' Hx; [reflexivity|].
  destruct l' as [|z t']; [reflexivity|].
  unfold next_of in *; simpl.
  destruct (Z.eqb_spec y x) as [->|_]; [exfalso; apply Hx; now left|].
  apply IH. intros H; apply Hx; now right.
Qed.

Lemma prev_of_notin (l l' : list Z) (x : Z) :
  ~ In x l' -> prev_of (combine l l') x = [].
Proof.
  revert l'. induction l as [|y t IH]; intros l' Hx; [reflexivity|].
  destruct l' as [|z t']; [reflexivity|].
  unfold prev_of in *; simpl.
  destruct (Z.eqb_spec z x) as [->|_]; [exfalso; apply Hx; now left|].
  apply IH. intros H; apply Hx; now right.
Qed.

(** In a list without repetition, the edge that leaves an element leads to
    its right neighbour, the edge that reaches it comes from its left one. *)
Lemma next_of_consecutive (pre post : list Z) (x : Z) :
  NoDup (pre ++ x :: post) ->
  next_of (consecutive_pairs (pre ++ x :: post)) x = firstn 1 post.
Proof.
  induction pre as [|p pre' IH]; intros Hnd.
  - simpl app. destruct post as [|y t]; [reflexivity|].
    rewrite consecutive_pairs_cons. unfold next_of. cbn [filter fst].
    rewrite Z.eqb_refl. cbn [map snd firstn]. f_equal.
    apply next_of_notin. now inversion_clear Hnd.
  - inversion_clear Hnd as [|? ? Hp Hnd'].
    assert (Hpx : p <> x) by (intros ->; apply Hp, in_elt).
    specialize (IH Hnd').
    destruct (pre' ++ x :: post) as [|r rest] eqn:E;
      [now destruct pre'|].
    simpl app. rewrite E, consecutive_pairs_cons.
    unfold next_of. cbn [filter fst].
    destruct (Z.eqb_spec p x); [contradiction|]. exact IH.
Qed.

Lemma prev_of_consecutive (pre post : list Z) (x : Z) :
  NoDup (pre ++ x :: post) ->
  prev_of (consecutive_pairs (pre ++ x :: post)) x =
    match pre with [] => [] | _ => [last pre x] end.
Proof.
  induction pre as [|p pre' IH]; intros Hnd.
  - simpl app. apply prev_of_notin. destruct post; simpl; [tauto|].
    inversion_clear Hnd as [|? ? Hx _]. exact Hx.
  - inversion_clear Hnd as [|? ? Hp Hnd'].
    specialize (IH Hnd').
    destruct pre' as [|q pre''].
    + simpl app in *. rewrite consecutive_pairs_cons.
      unfold prev_of. cbn [filter snd]. rewrite Z.eqb_refl.
      cbn [map fst last]. f_equal. exact IH.
    + assert (Hqx : q <> x).
      { intros ->. inversion_clear Hnd' as [|? ? Hq _]. apply Hq, in_elt. }
      simpl app in *. rewrite consecutive_pairs_cons.
      unfold prev_of. cbn [filter snd].
      destruct (Z.eqb_spec q x); [contradiction|]. exact IH.
Qed.

Lemma follow_consecutive (post pre : list Z) (x : Z) (fuel : nat) :
  NoDup (pre ++ x :: post) ->
  (length post <= fuel)%nat ->
  follow fuel (consecutive_pairs (pre ++ x :: post)) x = x :: post.
Proof.
  revert pre x fuel. induction post as [|y t IH]; intros pre x fuel Hnd Hfuel.
  - destruct fuel; simpl; [reflexivity|].
    now rewrite next_of_consecutive.
  - destruct fuel as [|fuel']; [simpl in Hfuel; lia|].
    simpl follow. rewrite next_of_consecutive by exact Hnd. simpl firstn.
    f_equal.
    replace (pre ++ x :: y :: t) with ((pre ++ [x]) ++ y :: t) in *
      by now rewrite <- app_assoc.
    apply IH; [exact Hnd|simpl in Hfuel; lia].
Qed.

Lemma chain_of_sorted (ids sorted_ids : list Z) :
  ids <> [] ->
  Permutation sorted_ids ids ->
  StronglySorted Z.lt sorted_ids ->
  chain_from_earliest ids (consecutive_pairs sorted_ids).
Proof.
  intros Hne Hperm Hsorted.
  pose proof (Permutation_length Hperm) as Hlen.
  split; [rewrite consecutive_pairs_length; lia|].
  split.
  - intros a b Hin.
    destruct (consecutive_pairs_next_larger Hsorted a b Hin) as [Hab Hbet].
    split; [exact Hab|]. intros c Hc. apply Hbet.
    eapply Permutation_in; [symmetry; exact Hperm|exact Hc].
  - split.
    { intros x Hx. apply (Permutation_in _ (Permutation_sym Hperm)) in Hx.
      apply in_split in Hx as [pre [post ->]].
      apply strict_sorted_NoDup in Hsorted.
      rewrite next_of_consecutive, prev_of_consecutive by exact Hsorted.
      split; [rewrite length_firstn; lia|destruct pre; simpl; lia]. }
    destruct sorted_ids as [|first rest].
    + apply Permutation_nil in Hperm. contradiction.
    + exists first. split; [eapply Permutation_in; [exact Hperm|now left]|].
      split.
      * intros c Hc. apply (Permutation_in _ (Permutation_sym Hperm)) in Hc.
        inversion_clear Hsorted as [|? ? _ Hfirst].
        rewrite Forall_forall in Hfirst.
        destruct Hc as [<-|Hc]; [lia|]. specialize (Hfirst c Hc). lia.
      * intros fuel Hfuel.
        pose proof (@follow_consecutive rest [] first fuel) as Hwalk.
        simpl app in Hwalk. rewrite Hwalk;
          [exact Hperm|now apply strict_sorted_NoDup|simpl in Hlen; lia].
Qed.

(** ** The graph of [Chart.__init__] *)

Lemma has_node_spec (G : DiGraph) (n : Z) :
  has_node G n = true <-> In n (map fst (nodes G)).
Proof.
  unfold has_node. rewrite existsb_exists, in_map_iff. split.
  - intros [p [Hp Heq]]. exists p. apply Z.eqb_eq in Heq. now split.
  - intros [p [Heq Hp]]. exists p. split; [exact Hp|now apply Z.eqb_eq].
Qed.

Lemma has_edge_spec (G : DiGraph) (u v : Z) :
  has_edge G u v = true <-> In (u, v) (edges G).
Proof.
  unfold has_edge. rewrite existsb_exists. split.
  - intros [[a b] [He Heq]]. apply andb_true_iff in Heq as [Ha Hb].
    apply Z.eqb_eq in Ha, Hb. simpl in Ha, Hb. now subst.
  - intros H. exists (u, v). simpl. now rewrite !Z.eqb_refl.
Qed.

Lemma add_nodes_fresh (rows : list annotated) (G : DiGraph) :
  NoDup (map fst (nodes G) ++ map (fun r : annotated => Gmt_time r) rows) ->
  nodes (fold_left
           (fun G (row : annotated) =>
              add_node G (isoformat (Gmt_time row)) (attrs_of row))
           rows G)
    = nodes G ++
      map (fun r : annotated => (Gmt_time r, Some (attrs_of r))) rows
  /\ edges (fold_left
              (fun G (row : annotated) =>
                 add_node G (isoformat (Gmt_time row)) (attrs_of row))
              rows G)
     = edges G.
Proof.
  revert G. induction rows as [|r rows IH]; intros G Hnd.
  - simpl. now rewrite app_nil_r.
  - assert (Hstep : add_node G (isoformat (Gmt_time r)) (attrs_of r) =
                    {| nodes := nodes G ++ [(Gmt_time r, Some (attrs_of r))];
                       edges := edges G |}).
    { unfold add_node, isoformat.
      destruct (has_node G (Gmt_time r)) eqn:E; [|reflexivity].
      apply has_node_spec in E. apply NoDup_remove_2 in Hnd.
      exfalso. apply Hnd. apply in_or_app. now left. }
    cbn [fold_left]. rewrite Hstep.
    destruct (IH {| nodes := nodes G ++ [(Gmt_time r, Some (attrs_of r))];
                    edges := edges G |}) as [Hn He].
    + cbn [nodes]. rewrite map_app, <- app_assoc. exact Hnd.
    + rewrite Hn, He. cbn [nodes edges map]. now rewrite <- app_assoc.
Qed.

Lemma add_edges_fresh (L : list (Z * Z)) (G : DiGraph) :
  (forall e, In e L ->
     In (fst e) (map fst (nodes G)) /\ In (snd e) (map fst (nodes G))) ->
  NoDup (edges G ++ L) ->
  nodes (fold_left (fun G e => add_edge G (fst e) (snd e)) L G) = nodes G
  /\ edges (fold_left (fun G e => add_edge G (fst e) (snd e)) L G)
     = edges G ++ L.
Proof.
  revert G. induction L as [|[u v] L IH]; intros G Hends Hnd.
  - simpl. now rewrite app_nil_r.
  - destruct (Hends (u, v) (or_introl eq_refl)) as [Hu Hv]. simpl in Hu, Hv.
    assert (Hstep : add_edge G u v =
                    {| nodes := nodes G; edges := edges G ++ [(u, v)] |}).
    { unfold add_edge, ensure_node.
      apply has_node_spec in Hu. rewrite Hu.
      apply has_node_spec in Hv. rewrite Hv.
      destruct (has_edge G u v) eqn:E; [|reflexivity].
      apply has_edge_spec in E. apply NoDup_remove_2 in Hnd.
      exfalso. apply Hnd. apply in_or_app. now left. }
    cbn [fold_left fst snd]. rewrite Hstep.
    destruct (IH {| nodes := nodes G; edges := edges G ++ [(u, v)] |})
      as [Hn He].
    + intros e He. apply Hends. now right.
    + cbn [edges]. rewrite <- app_assoc. exact Hnd.
    + rewrite Hn, He. cbn [nodes edges]. now rewrite <- app_assoc.
Qed.

Lemma add_next_edges_fold (ids : list Z) (indices : list nat) (G : DiGraph) :
  (forall i, In i indices -> (i + 1 < length ids)%nat) ->
  add_next_edges G ids indices =
    Some (fold_left (fun G e => add_edge G (fst e) (snd e))
            (flat_map (fun i =>
                         match nth_error ids i, nth_error ids (i + 1) with
                         | Some a, Some b => [(a, b)]
                         | _, _ => []
                         end) indices) G).
Proof.
  revert G. induction indices as [|i rest IH]; intros G Hin; [reflexivity|].
  assert (Hi : (i + 1 < length ids)%nat) by (apply Hin; now left).
  simpl.
  destruct (nth_error ids i) as [a|] eqn:Ea;
    [|apply nth_error_None in Ea; lia].
  destruct (nth_error ids (i + 1)) as [b|] eqn:Eb;
    [|apply nth_error_None in Eb; lia].
  simpl. apply IH. intros j Hj. apply Hin. now right.
Qed.

Lemma NoDup_combine_fst {A B : Type} (l : list A) (l' : list B) :
  NoDup l -> NoDup (combine l l').
Proof.
  revert l'. induction l as [|x t IH]; intros l' Hnd; [constructor|].
  destruct l' as [|y t']; [constructor|].
  inversion_clear Hnd as [|? ? Hx Ht]. simpl. constructor; [|now apply IH].
  intros Hin. apply in_combine_l in Hin. contradiction.
Qed.

Lemma Chart_init_graph (data : list annotated) :
  NoDup (map (fun r : annotated => Gmt_time r) (firstn 100 data)) ->
  exists c,
    Chart_init data = Some c
    /\ df c = firstn 100 data
    /\ nodes (G c) =
         map (fun r : annotated => (Gmt_time r, Some (attrs_of r)))
             (firstn 100 data)
    /\ edges (G c) = consecutive_pairs (chronological_ids (firstn 100 data)).
Proof.
  intros Hnd. unfold Chart_init.
  set (rows := firstn 100 data) in *.
  set (G0 := {| nodes := []; edges := [] |}).
  destruct (add_nodes_fresh rows G0 Hnd) as [Hn He].
  set (G1 := fold_left _ rows G0) in *. simpl in Hn, He.
  set (ids := chronological_ids rows).
  assert (Hperm : Permutation ids (map (fun r : annotated => Gmt_time r) rows)).
  { unfold ids. rewrite chronological_ids_sort. apply sort_perm. }
  rewrite add_next_edges_fold by (intros i Hi; apply in_range in Hi; lia).
  rewrite consecutive_by_index.
  edestruct (add_edges_fresh (consecutive_pairs ids) G1) as [Hn' He'].
  - intros [a b] Hin. apply in_consecutive_pairs in Hin as [Ha Hb].
    rewrite Hn, map_map. simpl.
    split; eapply Permutation_in; eauto.
  - rewrite He. simpl. apply NoDup_combine_fst.
    eapply Permutation_NoDup; [symmetry; exact Hperm|exact Hnd].
  - eexists. split; [reflexivity|]. simpl.
    rewrite Hn', He', Hn, He. auto.
Qed.

(** ** Node writes and the chain of NEXT relationships *)

Lemma create_nodes_trace (data : list annotated) :
  create_nodes data =
    (map (fun row => create_trade_node (trade_of row)) data, inl tt).
Proof.
  unfold create_nodes. rewrite for_each_ok by reflexivity.
  f_equal.
Qed.

Lemma node_ids_create_nodes (data : list annotated) :
  node_ids (writes (create_nodes data)) =
    map (fun r : annotated => Gmt_time r) data.
Proof.
  rewrite create_nodes_trace. unfold writes, node_ids; simpl.
  induction data as [|r t IH]; simpl; [reflexivity|now rewrite IH].
Qed.

Lemma next_edges_create_consecutive (ids : list Z) :
  next_edges (writes (create_consecutive ids)) = consecutive_pairs ids.
Proof.
  rewrite create_consecutive_trace. unfold writes, next_edges; simpl.
  induction (consecutive_pairs ids) as [|[a b] t IH]; simpl;
    [reflexivity|now rewrite IH].
Qed.

Lemma chronological_ids_chain (data : list annotated) :
  data <> [] ->
  NoDup (map (fun r : annotated => Gmt_time r) data) ->
  chain_from_earliest (map (fun r : annotated => Gmt_time r) data)
    (consecutive_pairs (chronological_ids data)).
Proof.
  intros Hne Hnd.
  assert (Hperm : Permutation (chronological_ids data)
                    (map (fun r : annotated => Gmt_time r) data))
    by (rewrite chronological_ids_sort; apply sort_perm).
  apply chain_of_sorted; [destruct data; [contradiction|discriminate]
                         |exact Hperm|].
  apply sorted_nodup_strict.
  - rewrite chronological_ids_sort. apply sort_sorted.
  - eapply Permutation_NoDup; [symmetry; exact Hperm|exact Hnd].
Qed.

Lemma NoDup_firstn {A : Type} (n : nat) (l : list A) :
  NoDup l -> NoDup (firstn n l).
Proof.
  intros H. rewrite <- (firstn_skipn n l) in H.
  now apply NoDup_app_remove_r in H.
Qed.

(** C2, amended.  When the annotated rows are not empty and no two of them
    share a timestamp, part 2 of create_graph.py ends without an exception
    and its NEXT relationships form one chain over the nodes of part 1: one
    relationship fewer than nodes, each from a node to the node with the
    next-larger timestamp, and the walk from the earliest node meets every
    node exactly once.  The graph [Chart.__init__] builds over the first 100
    rows is such a chain as well. *)
Theorem next_edges_form_chain (data : list annotated) :
  data <> [] ->
  NoDup (map (fun r : annotated => Gmt_time r) data) ->
  outcome (create_consecutive (chronological_ids data)) = inl tt
  /\ length (node_ids (writes (create_nodes data))) = length data
  /\ chain_from_earliest
       (node_ids (writes (create_nodes data)))
       (next_edges (writes (create_consecutive (chronological_ids data))))
  /\ exists c,
       Chart_init data = Some c
       /\ chain_from_earliest (map fst (nodes (G c))) (edges (G c)).
Proof.
  intros Hne Hnd.
  split; [now rewrite create_consecutive_trace|].
  rewrite node_ids_create_nodes, next_edges_create_consecutive.
  split; [apply length_map|].
  split; [now apply chronological_ids_chain|].
  assert (Hnd' : NoDup (map (fun r : annotated => Gmt_time r)
                          (firstn 100 data)))
    by (rewrite <- firstn_map; now apply NoDup_firstn).
  destruct (Chart_init_graph data Hnd') as [c [Hc [_ [Hn He]]]].
  exists c. split; [exact Hc|].
  rewrite Hn, He, map_map. simpl.
  apply chronological_ids_chain; [|exact Hnd'].
  destruct data; [contradiction|discriminate].
Qed.

Lemma next_edges_form_chain_witness :
  chain_from_earliest
    (node_ids (writes (create_nodes (annotated_rows Pad csv_sample))))
    (next_edges (writes (create_consecutive
                           (chronological_ids (annotated_rows Pad csv_sample))))).
Proof.
  apply (@next_edges_form_chain (annotated_rows Pad csv_sample)).
  - vm_compute. discriminate.
  - vm_compute. repeat (constructor; [simpl; lia|]). constructor.
Defined.

(** C2 as stated fails: two rows that share a timestamp are both kept, and
    the NEXT relationship then written leads from that timestamp to itself,
    under either default of [pct_change]. *)
Lemma next_edges_loop_on_shared_timestamp :
  (annotated_rows Pad csv_shared_time <> []
   /\ ~ chain_from_earliest
          (node_ids (writes (create_nodes (annotated_rows Pad csv_shared_time))))
          (next_edges (writes (create_consecutive
             (chronological_ids (annotated_rows Pad csv_shared_time))))))
  /\ (annotated_rows NoFill csv_shared_time <> []
      /\ ~ chain_from_earliest
             (node_ids (writes (create_nodes (annotated_rows NoFill csv_shared_time))))
             (next_edges (writes (create_consecutive
                (chronological_ids (annotated_rows NoFill csv_shared_time)))))).
Proof.
  split; (split; [vm_compute; discriminate|]);
    intros [_ [H _]]; destruct (H 60%Z 60%Z) as [Hlt _];
    try lia; vm_compute; now left.
Qed.

(** ** The annotator: [detect_outliers] and [compute_guideline_deviation] *)

Lemma ffill_from_length (col : list fnum) (last : fnum) :
  length (ffill_from last col) = length col.
Proof.
  revert last. induction col as [|x t IH]; intros last; simpl; [reflexivity|].
  destruct (isna x); simpl; now rewrite IH.
Qed.

Lemma removelast_len {A : Type} (l : list A) :
  length (removelast l) = pred (length l).
Proof. rewrite removelast_firstn_len, length_firstn. lia. Qed.

Lemma shift_length (col : list fnum) : length (shift col) = length col.
Proof.
  destruct col as [|x t]; [reflexivity|].
  unfold shift. cbn [length]. rewrite removelast_len. reflexivity.
Qed.

Lemma pct_change_length (fill : fill_method) (col : list fnum) :
  length (pct_change fill col) = length col.
Proof.
  unfold pct_change. rewrite length_map, length_combine, shift_length.
  rewrite Nat.min_id. destruct fill; [apply ffill_from_length|reflexivity].
Qed.

Lemma with_return_returns (fill : fill_method) (data : list candle) :
  map snd (with_return fill data) = pct_change fill (map Close data).
Proof.
  unfold with_return.
  generalize (pct_change_length fill (map Close data)).
  rewrite length_map. generalize (pct_change fill (map Close data)).
  induction data as [|r t IH]; intros [|x l] Hlen; try discriminate;
    [reflexivity|].
  simpl. f_equal. apply IH. simpl in Hlen. lia.
Qed.

Lemma filter_map_snd {A B : Type} (p : B -> bool) (l : list (A * B)) :
  map snd (filter (fun ab => p (snd ab)) l) = filter p (map snd l).
Proof.
  induction l as [|[a b] t IH]; simpl; [reflexivity|].
  destruct (p b); simpl; now rewrite IH.
Qed.

(** The ['Return'] column of the frame [detect_outliers] returns is the
    whole series of returns, the undefined ones left out. *)
Lemma detect_outliers_returns (sqrtQ : Q -> Q) (fill : fill_method)
  (threshold : fnum) (data : list candle) :
  map Return (detect_outliers sqrtQ fill threshold data) =
    dropna (pct_change fill (map Close data)).
Proof.
  unfold detect_outliers. rewrite map_map. cbn [Return].
  rewrite (filter_map_snd notna), with_return_returns. reflexivity.
Qed.

Lemma detect_outliers_rows (sqrtQ : Q -> Q) (fill : fill_method)
  (threshold : fnum) (data : list candle) :
  map (fun r : scored => (scored_candle r, Return r))
      (detect_outliers sqrtQ fill threshold data) =
    filter (fun rr => notna (snd rr)) (with_return fill data).
Proof.
  unfold detect_outliers. rewrite map_map. cbn [scored_candle Return].
  erewrite map_ext; [apply map_id|]. now intros [r x].
Qed.

(** C3.  The rows [detect_outliers] keeps are those whose return is defined.
    On each of them [z_score] is [(return - mean) / std], with the mean and
    the standard deviation of the whole series of defined returns, and
    [is_outlier] is true exactly when [|z_score| > threshold]. *)
Theorem is_outlier_iff_zscore_above_threshold (sqrtQ : Q -> Q)
  (fill : fill_method) (threshold : fnum) (data : list candle)
  (row : scored) :
  In row (detect_outliers sqrtQ fill threshold data) ->
  let returns := dropna (pct_change fill (map Close data)) in
  map Return (detect_outliers sqrtQ fill threshold data) = returns
  /\ In (scored_candle row, Return row)
        (filter (fun rr => notna (snd rr)) (with_return fill data))
  /\ z_score row = ((Return row - mean returns) / std sqrtQ returns)%F
  /\ (is_outlier row = true <-> (fabs (z_score row) >? threshold)%F = true).
Proof.
  intros Hin returns.
  split; [apply detect_outliers_returns|].
  split.
  - rewrite <- (detect_outliers_rows sqrtQ fill threshold data).
    now apply (in_map (fun r : scored => (scored_candle r, Return r))).
  - subst returns. rewrite <- (detect_outliers_returns sqrtQ fill threshold data).
    unfold detect_outliers in *. rewrite map_map. cbn [Return].
    apply in_map_iff in Hin as [rr [<- _]]. cbn [z_score is_outlier Return].
    split; [reflexivity|tauto].
Qed.

Lemma is_outlier_iff_zscore_above_threshold_witness :
  is_outlier (nth 0 sample_scored blank_scored) = true <->
  (fabs (z_score (nth 0 sample_scored blank_scored)) >? Fin 3)%F = true.
Proof.
  apply (@is_outlier_iff_zscore_above_threshold sqrt_micro Pad (Fin 3)
           sample_clean (nth 0 sample_scored blank_scored)).
  vm_compute. left. reflexivity.
Defined.

Lemma compute_guideline_deviation_rows (sqrtQ : Q -> Q) (data : list scored) :
  map annotated_scored (compute_guideline_deviation sqrtQ data) = data.
Proof.
  unfold compute_guideline_deviation. rewrite map_map. cbn [annotated_scored].
  apply map_id.
Qed.

(** C4.  [compute_guideline_deviation] keeps every row, and on each row
    [deviates_guideline] is true exactly when the volume is below the 5th or
    above the 95th percentile of the volumes of the whole frame, or the
    return is below [mean - 2 std] or above [mean + 2 std] of the returns of
    the whole frame. *)
Theorem deviates_iff_outside_bands (sqrtQ : Q -> Q) (data : list scored)
  (row : annotated) :
  In row (compute_guideline_deviation sqrtQ data) ->
  let volumes := map (fun r : scored => Volume r) data in
  let returns := map Return data in
  let volume_min := quantile (5 # 100) volumes in
  let volume_max := quantile (95 # 100) volumes in
  let return_min := (mean returns - Fin 2 * std sqrtQ returns)%F in
  let return_max := (mean returns + Fin 2 * std sqrtQ returns)%F in
  map annotated_scored (compute_guideline_deviation sqrtQ data) = data
  /\ (deviates_guideline row = true <->
      ((Volume row <? volume_min)%F = true
       \/ (Volume row >? volume_max)%F = true)
      \/ ((Return row <? return_min)%F = true
          \/ (Return row >? return_max)%F = true)).
Proof.
  intros Hin. cbv zeta. split.
  - apply compute_guideline_deviation_rows.
  - unfold compute_guideline_deviation in Hin.
    apply in_map_iff in Hin as [r [<- _]].
    cbn [deviates_guideline annotated_scored].
    rewrite !orb_true_iff. reflexivity.
Qed.

Lemma deviates_iff_outside_bands_witness :
  let row := nth 2 (compute_guideline_deviation sqrt_micro sample_scored)
                 blank_annotated in
  deviates_guideline row = true
  /\ (Volume row >? quantile (95 # 100)
                      (map (fun r : scored => Volume r) sample_scored))%F = true.
Proof.
  intros row.
  destruct (@deviates_iff_outside_bands sqrt_micro sample_scored row)
    as [_ H].
  - vm_compute. right. right. left. reflexivity.
  - split; [|vm_compute; reflexivity].
    apply H. left. right. vm_compute. reflexivity.
Defined.

(** ** Returns: [pct_change] *)

Lemma combine_shift (col : list fnum) :
  combine col (shift col) = with_previous NaN col.
Proof.
  destruct col as [|x t]; [reflexivity|]. unfold shift.
  generalize NaN. revert x.
  induction t as [|y t IH]; intros x p; [reflexivity|].
  change (removelast (x :: y :: t)) with (x :: removelast (y :: t)).
  cbn [combine with_previous]. f_equal. apply IH.
Qed.

Lemma with_previous_nth (col : list fnum) (prev : fnum) (k : nat)
  (a b : fnum) :
  nth_error col k = Some a ->
  nth_error col (S k) = Some b ->
  nth_error (with_previous prev col) (S k) = Some (b, a).
Proof.
  revert prev k. induction col as [|x t IH]; intros prev k Ha Hb;
    [destruct k; discriminate|].
  destruct k as [|k'].
  - injection Ha as ->. destruct t as [|y t']; [discriminate|].
    injection Hb as ->. reflexivity.
  - cbn [with_previous nth_error]. apply IH; assumption.
Qed.

Lemma ffill_from_nth (col : list fnum) (last : fnum) (k : nat) (x : fnum) :
  nth_error col k = Some x -> isna x = false ->
  nth_error (ffill_from last col) k = Some x.
Proof.
  revert last k. induction col as [|y t IH]; intros last k Hk Hx;
    [destruct k; discriminate|].
  destruct k as [|k']; simpl in *.
  - injection Hk as ->. now rewrite Hx.
  - destruct (isna y); simpl; now apply IH.
Qed.

Lemma filled_nth (fill : fill_method) (col : list fnum) (k : nat) (x : fnum) :
  nth_error col k = Some x -> isna x = false ->
  nth_error (match fill with Pad => ffill col | NoFill => col end) k = Some x.
Proof.
  destruct fill; [apply ffill_from_nth|auto].
Qed.

Lemma pct_change_nth (fill : fill_method) (col : list fnum) (k : nat)
  (a b : fnum) :
  nth_error col k = Some a -> isna a = false ->
  nth_error col (S k) = Some b -> isna b = false ->
  nth_error (pct_change fill col) (S k) = Some (b / a - Fin 1)%F.
Proof.
  intros Ha Hna Hb Hnb. unfold pct_change.
  rewrite combine_shift, nth_error_map.
  rewrite (@with_previous_nth _ NaN k a b); [reflexivity| |];
    now apply filled_nth.
Qed.

Lemma pct_change_head (fill : fill_method) (x : fnum) (col : list fnum) :
  exists rest, pct_change fill (x :: col) = NaN :: rest
               /\ length rest = length col.
Proof.
  pose proof (pct_change_length fill (x :: col)) as Hlen.
  assert (Hd : exists y d,
             match fill with Pad => ffill (x :: col) | NoFill => x :: col end
             = y :: d).
  { destruct fill; unfold ffill; simpl; [destruct (isna x)|]; eauto. }
  destruct Hd as [y [d Hd]].
  unfold pct_change in *. rewrite combine_shift, Hd in *.
  cbn [with_previous map fst snd] in *.
  eexists. split.
  - f_equal. now destruct y.
  - simpl in Hlen. lia.
Qed.

(** [close / previous - 1] is the fractional change
    [(close - previous) / previous], a zero [previous] included. *)
Lemma pct_formula (c p : Q) :
  fsame (Fin c / Fin p - Fin 1)%F ((Fin c - Fin p) / Fin p)%F.
Proof.
  unfold fsub. cbn [fneg fadd fdiv].
  destruct (p ?= 0) eqn:Ep.
  - apply Qeq_alt in Ep.
    assert (Hc : (c + - p ?= 0) = (c ?= 0))
      by (apply Qcompare_comp; [rewrite Ep; ring|reflexivity]).
    rewrite Hc. destruct (c ?= 0); exact I.
  - assert (~ p == 0) by (intros H; apply Qeq_alt in H; congruence).
    simpl. field. assumption.
  - assert (~ p == 0) by (intros H; apply Qeq_alt in H; congruence).
    simpl. field. assumption.
Qed.

(** ** The run of create_graph.py *)

Section Run.

Variable str_to_float : string -> option fnum.
Variable sqrtQ : Q -> Q.
Variable fill : fill_method.

Lemma create_graph_trace (csv : list raw_row) :
  create_graph str_to_float sqrtQ fill csv =
    (map (fun row => create_trade_node (trade_of row)) (annotate str_to_float sqrtQ fill csv)
     ++ map (fun e => create_consecutive_relationship (fst e) (snd e))
            (consecutive_pairs (chronological_ids (annotate str_to_float sqrtQ fill csv)))
     ++ flat_map
          (fun p => writes (similar_body SIMILAR_THRESHOLD
                              (trade_list_of (annotate str_to_float sqrtQ fill csv)) (fst p) (snd p)))
          (pairs (length (trade_list_of (annotate str_to_float sqrtQ fill csv)))),
     inl tt).
Proof.
  unfold create_graph.
  rewrite create_nodes_trace, create_consecutive_trace, create_similar_trace.
  reflexivity.
Qed.

Lemma similar_body_writes (threshold : fnum) (trade_list : list (Z * fnum))
  (i j : nat) (w : write) :
  In w (writes (similar_body threshold trade_list i j)) ->
  is_node_write w = false
  /\ forall id, In id (endpoints w) -> In id (map fst trade_list).
Proof.
  unfold similar_body, getitem.
  destruct (nth_error trade_list i) as [[a x]|] eqn:Ei; [|intros []].
  destruct (nth_error trade_list j) as [[b y]|] eqn:Ej; [|intros []].
  apply nth_error_In in Ei, Ej.
  apply (in_map fst) in Ei, Ej. simpl in Ei, Ej.
  simpl. destruct (fabs (x - y) <? threshold)%F; [|intros []].
  unfold truediv. destruct (py_truediv _ _); simpl; [|intros []].
  intros [<-|[]]. split; [reflexivity|].
  intros id [<-|[<-|[]]]; assumption.
Qed.

Lemma node_ids_app (u v : list write) :
  node_ids (u ++ v) = node_ids u ++ node_ids v.
Proof. apply flat_map_app. Qed.

Lemma node_ids_edges (ws : list write) :
  Forall (fun w => is_node_write w = false) ws -> node_ids ws = [].
Proof.
  induction 1 as [|w t Hw _ IH]; [reflexivity|].
  unfold node_ids in *. simpl. rewrite IH. now destruct w.
Qed.

Lemma node_ids_nodes (data : list annotated) :
  node_ids (map (fun row => create_trade_node (trade_of row)) data) =
    map (fun r : annotated => Gmt_time r) data.
Proof.
  unfold node_ids. induction data as [|r t IH]; simpl;
    [reflexivity|now rewrite IH].
Qed.

(** The writes of the two edge phases: none creates a node, and the ids
    they match are ids of rows of the annotated frame. *)
Lemma edge_phases (csv : list raw_row) (w : write) :
  In w (map (fun e => create_consecutive_relationship (fst e) (snd e))
            (consecutive_pairs (chronological_ids (annotate str_to_float sqrtQ fill csv)))
        ++ flat_map
             (fun p => writes (similar_body SIMILAR_THRESHOLD
                                 (trade_list_of (annotate str_to_float sqrtQ fill csv)) (fst p) (snd p)))
             (pairs (length (trade_list_of (annotate str_to_float sqrtQ fill csv))))) ->
  is_node_write w = false
  /\ forall id, In id (endpoints w) ->
       In id (map (fun r : annotated => Gmt_time r) (annotate str_to_float sqrtQ fill csv)).
Proof.
  intros Hin. apply in_app_or in Hin as [Hin|Hin].
  - apply in_map_iff in Hin as [[a b] [<- Hab]]. split; [reflexivity|].
    apply in_consecutive_pairs in Hab as [Ha Hb].
    assert (Hperm : Permutation (chronological_ids (annotate str_to_float sqrtQ fill csv))
                      (map (fun r : annotated => Gmt_time r) (annotate str_to_float sqrtQ fill csv)))
      by (rewrite chronological_ids_sort; apply sort_perm).
    intros id [<-|[<-|[]]]; eapply Permutation_in; eauto.
  - apply in_flat_map in Hin as [[i j] [_ Hw]].
    apply similar_body_writes in Hw as [Hk Hends]. split; [exact Hk|].
    intros id Hid. apply Hends in Hid.
    unfold trade_list_of in Hid. rewrite map_map in Hid. exact Hid.
Qed.

Lemma node_ids_create_graph (csv : list raw_row) :
  node_ids (writes (create_graph str_to_float sqrtQ fill csv)) =
    map (fun r : annotated => Gmt_time r) (annotate str_to_float sqrtQ fill csv).
Proof.
  rewrite create_graph_trace. unfold writes. cbn [fst].
  rewrite node_ids_app, node_ids_nodes, node_ids_edges;
    [apply app_nil_r|].
  apply Forall_forall. intros w Hw. now apply edge_phases in Hw.
Qed.

Lemma split_after_nodes (N E before after : list write) (w : write) :
  Forall (fun w' => is_node_write w' = true) N ->
  is_node_write w = false ->
  N ++ E = before ++ w :: after ->
  exists E1, before = N ++ E1 /\ E = E1 ++ w :: after.
Proof.
  intros HN Hw. revert before.
  induction HN as [|n N' Hn _ IH]; intros before Heq.
  - exists before. now split.
  - destruct before as [|b before'].
    + injection Heq as -> _. congruence.
    + injection Heq as -> Heq. destruct (IH _ Heq) as [E1 [-> ->]].
      exists E1. now split.
Qed.

(** C8.  In the sequence of writes of a run, whatever the CSV file, a write
    that creates a relationship is followed by no write that creates a node,
    and the two [trade_id]s it matches are those of nodes created by writes
    before it. *)
Theorem node_writes_precede_edge_writes (csv : list raw_row)
  (before after : list write) (w : write) :
  writes (create_graph str_to_float sqrtQ fill csv) = before ++ w :: after ->
  is_node_write w = false ->
  outcome (create_graph str_to_float sqrtQ fill csv) = inl tt
  /\ Forall (fun w' => is_node_write w' = false) after
  /\ node_ids before = node_ids (writes (create_graph str_to_float sqrtQ fill csv))
  /\ forall id, In id (endpoints w) -> In id (node_ids before).
Proof.
  intros Heq Hw. pose proof (node_ids_create_graph csv) as Hids.
  rewrite create_graph_trace in *. unfold writes, outcome in *.
  cbn [fst snd] in *.
  split; [reflexivity|].
  apply split_after_nodes in Heq as [E1 [-> HE]]; [|now apply Forall_map,
    Forall_forall|exact Hw].
  assert (Hedges : forall w', In w' (E1 ++ w :: after) ->
            is_node_write w' = false
            /\ forall id, In id (endpoints w') ->
                 In id (map (fun r : annotated => Gmt_time r) (annotate str_to_float sqrtQ fill csv)))
    by (intros w' Hw'; apply edge_phases; unfold writes; now rewrite HE).
  assert (Hbefore : node_ids
            (map (fun row => create_trade_node (trade_of row)) (annotate str_to_float sqrtQ fill csv)
             ++ E1) = map (fun r : annotated => Gmt_time r) (annotate str_to_float sqrtQ fill csv)).
  { rewrite node_ids_app, node_ids_nodes, node_ids_edges; [apply app_nil_r|].
    apply Forall_forall. intros w' Hw'. apply Hedges, in_or_app. now left. }
  split; [|split].
  - apply Forall_forall. intros w' Hw'. apply Hedges, in_or_app.
    right. now right.
  - now rewrite Hbefore, Hids.
  - rewrite Hbefore. intros id Hid.
    apply (proj2 (Hedges w (in_elt w E1 after))). exact Hid.
Qed.

End Run.

Lemma node_writes_precede_edge_writes_witness :
  let trace := writes (create_graph decimal_of_string sqrt_micro Pad csv_sample) in
  nth_error trace 3 = Some (create_consecutive_relationship 60 180)
  /\ Forall (fun w' => is_node_write w' = false) (skipn 4 trace)
  /\ In 60%Z (node_ids (firstn 3 trace))
  /\ In 180%Z (node_ids (firstn 3 trace)).
Proof.
  intros trace.
  destruct (@node_writes_precede_edge_writes decimal_of_string sqrt_micro Pad
              csv_sample (firstn 3 trace) (skipn 4 trace)
              (create_consecutive_relationship 60 180))
    as [_ [Hafter [_ Hends]]].
  - vm_compute. reflexivity.
  - reflexivity.
  - split; [vm_compute; reflexivity|].
    split; [exact Hafter|].
    split; apply Hends; simpl; auto.
Defined.

(** ** The first row and the rows after it *)

Lemma annotate_candles (str_to_float : string -> option fnum)
  (sqrtQ : Q -> Q) (fill : fill_method) (csv : list raw_row) :
  map (fun r : annotated => scored_candle r)
      (annotate str_to_float sqrtQ fill csv) =
    map fst (filter (fun rr => notna (snd rr))
               (with_return fill (load_and_clean_data str_to_float csv))).
Proof.
  unfold annotate.
  rewrite <- (map_map annotated_scored scored_candle).
  rewrite compute_guideline_deviation_rows.
  rewrite <- detect_outliers_rows with (sqrtQ := sqrtQ) (threshold := Fin 3).
  now rewrite map_map.
Qed.

Lemma with_return_cons (fill : fill_method) (first : candle)
  (rest : list candle) :
  exists returns, with_return fill (first :: rest)
                  = (first, NaN) :: combine rest returns.
Proof.
  unfold with_return. cbn [map].
  destruct (pct_change_head fill (Close first) (map Close rest))
    as [returns [-> _]].
  now exists returns.
Qed.

Lemma annotate_after_first (str_to_float : string -> option fnum)
  (sqrtQ : Q -> Q) (fill : fill_method) (csv : list raw_row)
  (first : candle) (rest : list candle) :
  load_and_clean_data str_to_float csv = first :: rest ->
  incl (map (fun r : annotated => scored_candle r)
            (annotate str_to_float sqrtQ fill csv)) rest.
Proof.
  intros Hdata c Hc. rewrite annotate_candles, Hdata in Hc.
  destruct (with_return_cons fill first rest) as [returns Hwr].
  rewrite Hwr in Hc. cbn [filter snd notna isna negb] in Hc.
  apply in_map_iff in Hc as [[c' x] [<- Hin]].
  apply filter_In in Hin as [Hin _]. now apply in_combine_l in Hin.
Qed.

(** C5, amended.  In the frame [load_and_clean_data] returns, the return of
    a row whose close and whose previous row's close are numbers is
    [close / previous - 1], which is [(close - previous) / previous], the
    previous row being the one before it in the frame (the order of the
    file).  The first row of the frame has no return; every node that
    create_graph.py creates comes from a later row, so no node carries the
    timestamp of the first row unless a later row has the same one. *)
Theorem return_over_previous_row (str_to_float : string -> option fnum)
  (sqrtQ : Q -> Q) (fill : fill_method) (csv : list raw_row) :
  let data := load_and_clean_data str_to_float csv in
  let returns := pct_change fill (map Close data) in
  (forall k c p,
      nth_error (map Close data) k = Some (Fin p) ->
      nth_error (map Close data) (S k) = Some (Fin c) ->
      nth_error returns (S k) = Some (Fin c / Fin p - Fin 1)%F
      /\ fsame (Fin c / Fin p - Fin 1)%F ((Fin c - Fin p) / Fin p)%F)
  /\ (forall first rest,
        data = first :: rest ->
        nth_error returns 0 = Some NaN
        /\ (forall t,
              In t (node_ids (writes (create_graph str_to_float sqrtQ fill csv))) ->
              In t (map Gmt_time rest))
        /\ (~ In (Gmt_time first) (map Gmt_time rest) ->
            ~ In (Gmt_time first)
                 (node_ids (writes (create_graph str_to_float sqrtQ fill csv))))).
Proof.
  intros data returns. split.
  - intros k c p Hp Hc. split; [|apply pct_formula].
    now apply pct_change_nth.
  - intros first rest Hdata.
    assert (Hnodes : forall t,
              In t (node_ids (writes (create_graph str_to_float sqrtQ fill csv))) ->
              In t (map Gmt_time rest)).
    { intros t Ht. rewrite node_ids_create_graph in Ht.
      apply in_map_iff in Ht as [r [<- Hr]].
      apply in_map.
      apply (@annotate_after_first str_to_float sqrtQ fill csv first rest Hdata).
      now apply (in_map (fun r : annotated => scored_candle r)). }
    split; [|split].
    + subst returns. rewrite Hdata. cbn [map].
      now destruct (pct_change_head fill (Close first) (map Close rest))
        as [tl [-> _]].
    + exact Hnodes.
    + intros Hfresh Hin. apply Hfresh. now apply Hnodes.
Qed.

Lemma return_over_previous_row_witness :
  nth_error (pct_change Pad (map Close sample_clean)) 1 =
    Some (Fin (11005 # 10000) / Fin (11002 # 10000) - Fin 1)%F
  /\ fsame (Fin (11005 # 10000) / Fin (11002 # 10000) - Fin 1)%F
           ((Fin (11005 # 10000) - Fin (11002 # 10000)) / Fin (11002 # 10000))%F.
Proof.
  apply (proj1 (return_over_previous_row decimal_of_string sqrt_micro Pad
                  csv_sample) 0%nat (11005 # 10000) (11002 # 10000));
    vm_compute; reflexivity.
Defined.

(** C5 as stated fails on a file that is not in time order: the row that
    loses its return and its node is the first row of the file, the
    earliest observation (minute 60) does get a node, and the return of the
    row at minute 180 is taken over the close of the row before it in the
    file (minute 60), not over that of the observation before it in time
    (minute 120). *)
Lemma first_row_not_first_in_time :
  Forall (fun fill =>
    let rows := annotated_rows fill csv_unsorted in
    let ids := node_ids (writes (create_graph decimal_of_string sqrt_micro
                                   fill csv_unsorted)) in
    (forall t, In t (map Gmt_time (load_and_clean_data decimal_of_string
                                     csv_unsorted)) -> (60 <= t)%Z)
    /\ In 60%Z ids
    /\ ~ In 120%Z ids
    /\ exists row,
         In row rows /\ Gmt_time row = 180%Z
         /\ Return row = (Fin (13 # 10) / Fin (11 # 10) - Fin 1)%F
         /\ ~ fsame (Return row)
                    ((Fin (13 # 10) - Fin (12 # 10)) / Fin (12 # 10))%F)
    [Pad; NoFill].
Proof.
  apply Forall_cons; [|apply Forall_cons; [|apply Forall_nil]]; cbv zeta;
    (split; [|split; [|split]]).
  1, 5: intros t Ht; vm_compute in Ht; destruct Ht as [<-|[<-|[<-|[]]]]; lia.
  1, 4: vm_compute; tauto.
  1, 3: intros H; vm_compute in H; destruct H as [H|[H|[]]]; discriminate.
  - exists (nth 1 (annotated_rows Pad csv_unsorted) blank_annotated).
    split; [vm_compute; tauto|]. split; [reflexivity|].
    split; [vm_compute; reflexivity|].
    intros H; vm_compute in H; discriminate.
  - exists (nth 1 (annotated_rows NoFill csv_unsorted) blank_annotated).
    split; [vm_compute; tauto|]. split; [reflexivity|].
    split; [vm_compute; reflexivity|].
    intros H; vm_compute in H; discriminate.
Qed.

(** ** Cleaning: [load_and_clean_data] *)

Lemma Qeq_bool_sym (a b : Q) : Qeq_bool a b = Qeq_bool b a.
Proof.
  destruct (Qeq_bool a b) eqn:E, (Qeq_bool b a) eqn:E'; try reflexivity.
  - apply Qeq_bool_iff in E. symmetry in E. apply Qeq_bool_iff in E. congruence.
  - apply Qeq_bool_iff in E'. symmetry in E'. apply Qeq_bool_iff in E'.
    congruence.
Qed.

Lemma float_same_sym (x y : fnum) : float_same x y = float_same y x.
Proof.
  destruct x, y; simpl; try reflexivity. apply Qeq_bool_sym.
Qed.

Lemma cell_eqb_sym (c d : cell) : cell_eqb c d = cell_eqb d c.
Proof.
  destruct c, d; simpl; try reflexivity;
    [apply float_same_sym|apply String.eqb_sym].
Qed.

Lemma raw_eqb_sym (r s : raw_row) : raw_eqb r s = raw_eqb s r.
Proof.
  unfold raw_eqb.
  rewrite (Z.eqb_sym (raw_time r)), (cell_eqb_sym (raw_open r)),
    (cell_eqb_sym (raw_high r)), (cell_eqb_sym (raw_low r)),
    (cell_eqb_sym (raw_close r)), (cell_eqb_sym (raw_volume r)).
  reflexivity.
Qed.

Lemma drop_duplicates_from_in (rows seen : list raw_row) (r : raw_row) :
  In r (drop_duplicates_from seen rows) ->
  In r rows /\ existsb (raw_eqb r) seen = false.
Proof.
  revert seen. induction rows as [|x t IH]; intros seen Hin; [contradiction|].
  simpl in Hin. destruct (existsb (raw_eqb x) seen) eqn:E.
  - apply IH in Hin as [Hin Hseen]. split; [now right|exact Hseen].
  - destruct Hin as [->|Hin].
    + split; [now left|exact E].
    + apply IH in Hin as [Hin Hseen]. split; [now right|].
      simpl in Hseen. now apply orb_false_iff in Hseen as [_ Hseen].
Qed.

Lemma drop_duplicates_from_distinct (rows seen : list raw_row) :
  ForallOrdPairs (fun a b => raw_eqb a b = false)
    (drop_duplicates_from seen rows).
Proof.
  revert seen. induction rows as [|x t IH]; intros seen; [constructor|].
  simpl. destruct (existsb (raw_eqb x) seen); [apply IH|].
  constructor; [|apply IH].
  apply Forall_forall. intros b Hb.
  apply drop_duplicates_from_in in Hb as [_ Hb]. simpl in Hb.
  apply orb_false_iff in Hb as [Hb _]. rewrite (raw_eqb_sym x b). exact Hb.
Qed.





(** The duplicates go before the coercion: two rows that differ only in
    the text of a field and coerce to the same numbers are both kept. *)
Remark equal_after_coercion_both_kept :
  let data := load_and_clean_data decimal_of_string csv_two_spellings in
  let a := nth 1 data blank_candle in
  let b := nth 2 data blank_candle in
  length data = 4%nat
  /\ Gmt_time a = Gmt_time b
  /\ feqb (Open a) (Open b) = true /\ feqb (High a) (High b) = true
  /\ feqb (Low a) (Low b) = true /\ feqb (Close a) (Close b) = true
  /\ feqb (Volume a) (Volume b) = true.
Proof. vm_compute. repeat split. Qed.

(** ** Sums of floats *)

Lemma fadd_nonfinite (a x : fnum) :
  is_finite a = false -> is_finite (a + x)%F = false.
Proof. destruct a, x; simpl; congruence. Qed.

Lemma fold_fadd_nonfinite (l : list fnum) (a : fnum) :
  is_finite a = false -> is_finite (fold_left fadd l a) = false.
Proof.
  revert a. induction l as [|x t IH]; intros a Ha; [exact Ha|].
  simpl. apply IH. now apply fadd_nonfinite.
Qed.

Lemma fold_fadd_finite (l : list fnum) (a S : Q) :
  fold_left fadd l (Fin a) = Fin S ->
  exists qs, l = map Fin qs /\ S == a + sumQ qs.
Proof.
  revert a. induction l as [|x t IH]; intros a H.
  - exists []. simpl in *. injection H as ->. split; [reflexivity|ring].
  - cbn [fold_left] in H.
    assert (Hfin : is_finite (Fin a + x)%F = true).
    { destruct (is_finite (Fin a + x)%F) eqn:E; [reflexivity|].
      apply (fold_fadd_nonfinite t) in E. rewrite H in E. discriminate. }
    destruct x as [b| | |]; try discriminate.
    simpl in H. destruct (IH _ H) as [qs [-> Hsum]].
    exists (b :: qs). split; [reflexivity|]. simpl. rewrite Hsum. ring.
Qed.

Lemma sumQ_nonneg (qs : list Q) :
  Forall (fun q => 0 <= q) qs -> 0 <= sumQ qs.
Proof.
  induction 1 as [|q t Hq _ IH]; simpl; [apply Qle_refl|].
  lra.
Qed.

Lemma Qsquare_nonneg (x : Q) : 0 <= x * x.
Proof.
  destruct (Qlt_le_dec x 0) as [Hneg|Hpos].
  - setoid_replace (x * x) with ((- x) * (- x)) by ring.
    apply Qmult_le_0_compat; lra.
  - now apply Qmult_le_0_compat.
Qed.

Lemma sq_finite (x y : fnum) (t : Q) :
  sq (x - y)%F = Fin t ->
  exists a b, x = Fin a /\ y = Fin b /\ t = (a + - b) * (a + - b).
Proof.
  destruct x as [a| | |], y as [b| | |]; simpl; try discriminate.
  intros H. injection H as <-. now exists a, b.
Qed.

Lemma fdiv_by_count (Y : fnum) (m : nat) (q : Q) :
  (0 < m)%nat -> (Y / of_nat m)%F = Fin q ->
  exists S, Y = Fin S /\ q = S / inject_Z (Z.of_nat m).
Proof.
  intros Hm. unfold of_nat.
  assert (Hpos : (inject_Z (Z.of_nat m) ?= 0) = Gt).
  { apply Qgt_alt. unfold Qlt; simpl. lia. }
  destruct Y as [S| | |]; cbn [fdiv]; try rewrite Hpos; try discriminate.
  intros H. injection H as <-. now exists S.
Qed.

Lemma flt_nan (x : fnum) : (x <? NaN)%F = false.
Proof. now destruct x. Qed.

Lemma dropna_idem (col : list fnum) : dropna (dropna col) = dropna col.
Proof.
  unfold dropna. induction col as [|x t IH]; simpl; [reflexivity|].
  destruct (notna x) eqn:E; simpl; [rewrite E|]; now rewrite IH.
Qed.

(** ** A standard deviation of zero *)

Lemma feqb_finite (a b : Q) : feqb (Fin a) (Fin b) = true <-> a == b.
Proof. apply Qeq_bool_iff. Qed.

(** A quotient by zero is NaN when the dividend is zero or NaN, and an
    infinity otherwise: the division is numpy's and raises nothing. *)
Lemma fdiv_by_zero (d s : fnum) :
  feqb s (Fin 0) = true ->
  match d with
  | Fin q => if Qeq_bool q 0 then (d / s)%F = NaN
             else (d / s)%F = PInf \/ (d / s)%F = NInf
  | NaN => (d / s)%F = NaN
  | _ => (d / s)%F = PInf \/ (d / s)%F = NInf
  end.
Proof.
  destruct s as [q| | |]; try discriminate. intros Hq.
  apply feqb_finite, Qeq_alt in Hq.
  destruct d as [a| | |]; cbn [fdiv]; rewrite ?Hq; auto.
  destruct (Qeq_bool a 0) eqn:Ea.
  - apply Qeq_bool_iff, Qeq_alt in Ea. now rewrite Ea.
  - destruct (a ?= 0) eqn:C; auto.
    apply Qeq_alt, Qeq_bool_iff in C. congruence.
Qed.

(** The difference of two floats is zero when they are equal numbers, NaN
    when they are the same infinity, and not zero when they differ. *)
Lemma fsub_equal (x m : fnum) :
  match (x - m)%F with
  | Fin q => Qeq_bool q 0 = feqb x m
  | NaN => True
  | _ => feqb x m = false
  end.
Proof.
  destruct x as [a| | |], m as [b| | |]; cbn [fsub fneg fadd feqb];
    try reflexivity; try exact I.
  destruct (Qeq_bool a b) eqn:E.
  - apply Qeq_bool_iff in E. apply Qeq_bool_iff. lra.
  - destruct (Qeq_bool (a + - b) 0) eqn:E'; [|reflexivity].
    apply Qeq_bool_iff in E'.
    assert (H : a == b) by lra. apply Qeq_bool_iff in H. congruence.
Qed.

(** The frame [detect_outliers] returns is every row with a defined return,
    scored against the mean and the standard deviation of those returns. *)
Lemma detect_outliers_score (sqrtQ : Q -> Q) (fill : fill_method)
  (threshold : fnum) (data : list candle) :
  let kept := filter (fun rr => notna (snd rr)) (with_return fill data) in
  detect_outliers sqrtQ fill threshold data
  = map (score (mean (map snd kept)) (std sqrtQ (map snd kept)) threshold)
        kept.
Proof. reflexivity. Qed.

(** C7.  [detect_outliers] returns every row whose return is defined, scored
    by the division of lines 30 to 32, which is numpy's and raises nothing.
    When the standard deviation it divides by is 0, whatever the mean, no
    z-score is a number: on a row whose return equals the mean, as all do
    when the returns are identical and the mean is their value, [z_score]
    is NaN, the value of [0 / 0], and [is_outlier] is false; a row is
    flagged only when its return differs from the mean, its z-score an
    infinity. *)
Theorem zero_std_score_policy (sqrtQ : Q -> Q) (fill : fill_method)
  (threshold : fnum) (data : list candle) :
  let kept := filter (fun rr => notna (snd rr)) (with_return fill data) in
  detect_outliers sqrtQ fill threshold data
  = map (score (mean (map snd kept)) (std sqrtQ (map snd kept)) threshold)
        kept
  /\ forall (mean_return std_return : fnum) (rr : candle * fnum),
       feqb std_return (Fin 0) = true ->
       let row := score mean_return std_return threshold rr in
       is_finite (z_score row) = false
       /\ (feqb (snd rr) mean_return = true ->
           z_score row = NaN /\ is_outlier row = false)
       /\ (is_outlier row = true ->
           (z_score row = PInf \/ z_score row = NInf)
           /\ feqb (snd rr) mean_return = false).
Proof.
  split; [apply detect_outliers_score|].
  intros m s [c x] Hs. cbv zeta. cbn [score z_score is_outlier snd].
  pose proof (@fdiv_by_zero (x - m)%F s Hs) as Hz.
  pose proof (fsub_equal x m) as Hd.
  unfold fgt.
  destruct (x - m)%F as [d| | |].
  - destruct (Qeq_bool d 0) eqn:E.
    + rewrite Hz. cbn [is_finite fabs]. rewrite flt_nan.
      repeat split; discriminate.
    + rewrite <- Hd.
      destruct Hz as [-> | ->]; cbn [is_finite fabs];
        (split; [reflexivity|]); (split; [discriminate|]);
        intros _; auto.
  - rewrite Hd.
    destruct Hz as [-> | ->]; cbn [is_finite fabs];
      (split; [reflexivity|]); (split; [discriminate|]); intros _; auto.
  - rewrite Hd.
    destruct Hz as [-> | ->]; cbn [is_finite fabs];
      (split; [reflexivity|]); (split; [discriminate|]); intros _; auto.
  - rewrite Hz. cbn [is_finite fabs]. rewrite flt_nan.
    repeat split; discriminate.
Qed.

Lemma zero_std_score_policy_witness :
  Forall (fun row : scored => z_score row = NaN /\ is_outlier row = false)
    (detect_outliers sqrt_micro Pad (Fin 3)
       (load_and_clean_data decimal_of_string csv_doubling)).
Proof.
  destruct (zero_std_score_policy sqrt_micro Pad (Fin 3)
              (load_and_clean_data decimal_of_string csv_doubling))
    as [-> Hpolicy].
  apply Forall_map, Forall_forall. intros rr Hrr.
  apply Hpolicy; [vm_compute; reflexivity|].
  vm_compute in Hrr.
  destruct Hrr as [<-|[<-|[<-|[]]]]; vm_compute; reflexivity.
Defined.

(** ** Cells that are not numbers *)

Lemma dropna_without (pre post : list fnum) :
  dropna (pre ++ NaN :: post) = dropna (pre ++ post).
Proof. unfold dropna. now rewrite !filter_app. Qed.

Lemma quantile_without (q : Q) (pre post : list fnum) :
  quantile q (pre ++ NaN :: post) = quantile q (pre ++ post).
Proof. unfold quantile. now rewrite dropna_without. Qed.

Lemma mean_without (pre post : list fnum) :
  mean (pre ++ NaN :: post) = mean (pre ++ post).
Proof. unfold mean. now rewrite dropna_without. Qed.

Lemma std_without (sqrtQ : Q -> Q) (pre post : list fnum) :
  std sqrtQ (pre ++ NaN :: post) = std sqrtQ (pre ++ post).
Proof. unfold std. now rewrite dropna_without. Qed.

Lemma load_keeps_row (str_to_float : string -> option fnum)
  (csv : list raw_row) (r : raw_row) :
  In r (drop_duplicates csv) ->
  fne (to_numeric str_to_float (raw_volume r)) (Fin 0) = true ->
  In (coerce str_to_float r) (load_and_clean_data str_to_float csv).
Proof.
  intros Hr Hv. unfold load_and_clean_data.
  apply filter_In. split; [now apply in_map|exact Hv].
Qed.

Lemma pct_change_nofill_missing (col : list fnum) (k : nat) :
  nth_error col k = Some NaN ->
  nth_error (pct_change NoFill col) k = Some NaN.
Proof.
  intros Hk. unfold pct_change. rewrite combine_shift, nth_error_map.
  generalize NaN at 1. revert k Hk.
  induction col as [|x t IH]; intros k Hk p; [destruct k; discriminate|].
  destruct k as [|k']; simpl in *; [|now apply IH].
  injection Hk as ->. reflexivity.
Qed.

(** C9, amended.  A text that does not parse becomes NaN under the coercion;
    [load_and_clean_data] returns a frame on every file, in which each row
    left by [drop_duplicates] whose coerced volume is not 0 is present,
    coerced field by field.  The statistics skip what is missing in the
    column they are taken over: a row without volume does not count in the
    volume percentiles, and the mean and standard deviation of the returns
    are those of the defined returns.  Without filling, a missing close
    gives a missing return, and the row is dropped. *)
Theorem coercion_failure_is_missing_value
  (str_to_float : string -> option fnum) (sqrtQ : Q -> Q)
  (fill : fill_method) (threshold : fnum) (csv : list raw_row) :
  (forall s, str_to_float s = None -> to_numeric str_to_float (CStr s) = NaN)
  /\ (forall r,
        In r (drop_duplicates csv) ->
        fne (to_numeric str_to_float (raw_volume r)) (Fin 0) = true ->
        In (coerce str_to_float r) (load_and_clean_data str_to_float csv))
  /\ (forall (pre post : list scored) (row : scored) (q : Q),
        Volume row = NaN ->
        quantile q (map (fun r : scored => Volume r) (pre ++ row :: post)) =
        quantile q (map (fun r : scored => Volume r) (pre ++ post)))
  /\ (forall pre post,
        mean (pre ++ NaN :: post) = mean (pre ++ post)
        /\ std sqrtQ (pre ++ NaN :: post) = std sqrtQ (pre ++ post))
  /\ map Return (detect_outliers sqrtQ fill threshold
                   (load_and_clean_data str_to_float csv)) =
       dropna (pct_change fill
                 (map Close (load_and_clean_data str_to_float csv)))
  /\ (forall k,
        nth_error (map Close (load_and_clean_data str_to_float csv)) k
          = Some NaN ->
        nth_error (pct_change NoFill
                     (map Close (load_and_clean_data str_to_float csv))) k
          = Some NaN).
Proof.
  split; [intros s Hs; simpl; now rewrite Hs|].
  split; [intros r; apply load_keeps_row|].
  split.
  - intros pre post row q Hrow.
    rewrite !map_app. cbn [map]. rewrite Hrow. apply quantile_without.
  - split; [intros pre post; split;
              [apply mean_without|apply std_without]|].
    split; [apply detect_outliers_returns|].
    intros k. apply pct_change_nofill_missing.
Qed.

Lemma coercion_failure_is_missing_value_witness :
  Volume (coerce decimal_of_string (text_row 60 1 2 1 "2.0" "n/a")) = NaN
  /\ In (coerce decimal_of_string (text_row 60 1 2 1 "2.0" "n/a"))
        (load_and_clean_data decimal_of_string csv_missing_volume).
Proof.
  destruct (coercion_failure_is_missing_value decimal_of_string sqrt_micro
              Pad (Fin 3) csv_missing_volume) as [Hnan [Hkeep _]].
  split.
  - apply (Hnan "n/a"%string). reflexivity.
  - apply (Hkeep (text_row 60 1 2 1 "2.0" "n/a")).
    + vm_compute. tauto.
    + reflexivity.
Defined.

(** C9 as stated fails with the pad default of [pct_change] (pandas before
    3.0): the row at minute 60, whose close did not parse, is kept with the
    return 0 of its padded close, and the mean of the returns counts it. *)
Lemma missing_close_counted_when_padded :
  let rows := annotated_rows Pad csv_missing_close in
  let row := nth 0 rows blank_annotated in
  Gmt_time row = 60%Z
  /\ Close row = NaN
  /\ fsame (Return row) (Fin 0)
  /\ fsame (mean (map (fun r : annotated => Return r) rows)) (Fin (1 # 2))
  /\ fsame (mean (map (fun r : annotated => Return r) (tl rows))) (Fin (3 # 4)).
Proof.
  vm_compute. repeat split; reflexivity.
Qed.

(** ** A row without volume on its way to the graph *)

Lemma annotate_rows (str_to_float : string -> option fnum)
  (sqrtQ : Q -> Q) (fill : fill_method) (csv : list raw_row) :
  map (fun r : annotated => (scored_candle r, Return r))
      (annotate str_to_float sqrtQ fill csv) =
    filter (fun rr => notna (snd rr))
           (with_return fill (load_and_clean_data str_to_float csv)).
Proof.
  unfold annotate.
  rewrite <- (map_map annotated_scored
                (fun r : scored => (scored_candle r, Return r))).
  rewrite compute_guideline_deviation_rows. apply detect_outliers_rows.
Qed.

Lemma node_writes_of_run (str_to_float : string -> option fnum)
  (sqrtQ : Q -> Q) (fill : fill_method) (csv : list raw_row)
  (trade : Trade.t) :
  In (create_trade_node trade)
     (writes (create_graph str_to_float sqrtQ fill csv)) <->
  exists row, In row (annotate str_to_float sqrtQ fill csv)
              /\ trade = trade_of row.
Proof.
  rewrite create_graph_trace. unfold writes. cbn [fst]. split.
  - intros Hin. apply in_app_or in Hin as [Hin|Hin].
    + apply in_map_iff in Hin as [row [Heq Hrow]].
      exists row. split; [exact Hrow|congruence].
    + apply edge_phases in Hin as [Hk _]. discriminate.
  - intros [row [Hrow ->]]. apply in_or_app. left.
    now apply (in_map (fun row => create_trade_node (trade_of row))).
Qed.

(** C10, amended.  A row left by [drop_duplicates] whose volume coerces to
    NaN is in the frame [load_and_clean_data] returns.  In that frame a row
    without volume becomes a node, with NaN as volume, when its return is
    defined; and every node comes from a row whose return is defined, so a
    row without return (the first one, in particular) becomes none. *)
Theorem missing_volume_row_becomes_node
  (str_to_float : string -> option fnum) (sqrtQ : Q -> Q)
  (fill : fill_method) (csv : list raw_row) :
  (forall r,
      In r (drop_duplicates csv) ->
      to_numeric str_to_float (raw_volume r) = NaN ->
      In (coerce str_to_float r) (load_and_clean_data str_to_float csv))
  /\ (forall row ret,
        In (row, ret)
           (with_return fill (load_and_clean_data str_to_float csv)) ->
        Volume row = NaN ->
        notna ret = true ->
        exists trade,
          In (create_trade_node trade)
             (writes (create_graph str_to_float sqrtQ fill csv))
          /\ Trade.trade_id trade = Gmt_time row
          /\ Trade.volume trade = NaN)
  /\ (forall trade,
        In (create_trade_node trade)
           (writes (create_graph str_to_float sqrtQ fill csv)) ->
        exists row ret,
          In (row, ret)
             (with_return fill (load_and_clean_data str_to_float csv))
          /\ notna ret = true
          /\ Trade.trade_id trade = Gmt_time row
          /\ Trade.volume trade = Volume row).
Proof.
  split; [|split].
  - intros r Hr Hv. apply load_keeps_row; [exact Hr|]. now rewrite Hv.
  - intros row ret Hin Hvol Hret.
    assert (Hkept : In (row, ret)
              (map (fun r : annotated => (scored_candle r, Return r))
                   (annotate str_to_float sqrtQ fill csv))).
    { rewrite annotate_rows. apply filter_In. now split. }
    apply in_map_iff in Hkept as [r [Heq Hr]]. injection Heq as <- <-.
    exists (trade_of r). split; [|split].
    + apply node_writes_of_run. now exists r.
    + reflexivity.
    + exact Hvol.
  - intros trade Hin. apply node_writes_of_run in Hin as [r [Hr ->]].
    exists (scored_candle r), (Return r).
    assert (Hkept : In (scored_candle r, Return r)
              (filter (fun rr => notna (snd rr))
                 (with_return fill (load_and_clean_data str_to_float csv)))).
    { rewrite <- annotate_rows with (sqrtQ := sqrtQ).
      now apply (in_map (fun r : annotated => (scored_candle r, Return r))). }
    apply filter_In in Hkept as [Hin Hret]. auto.
Qed.

Lemma missing_volume_row_becomes_node_witness :
  exists trade,
    In (create_trade_node trade)
       (writes (create_graph decimal_of_string sqrt_micro Pad
                  csv_missing_volume))
    /\ Trade.trade_id trade = 60%Z
    /\ Trade.volume trade = NaN.
Proof.
  destruct (missing_volume_row_becomes_node decimal_of_string sqrt_micro Pad
              csv_missing_volume) as [_ [Hnode _]].
  apply (Hnode (coerce decimal_of_string (text_row 60 1 2 1 "2.0" "n/a"))
               (Fin (20 # 10) / Fin (10 # 10) - Fin 1)%F).
  - vm_compute. tauto.
  - reflexivity.
  - reflexivity.
Defined.

(** C10 as stated fails on the first row: with a volume that does not
    parse it is kept by the cleaning, and no node carries its timestamp,
    under either default of [pct_change]. *)
Lemma first_row_without_volume_has_no_node :
  let first := coerce decimal_of_string (text_row 0 1 1 1 "1.0" "n/a") in
  Volume first = NaN
  /\ In first (load_and_clean_data decimal_of_string csv_first_missing_volume)
  /\ Forall (fun fill =>
       ~ In (Gmt_time first)
            (node_ids (writes (create_graph decimal_of_string sqrt_micro fill
                                 csv_first_missing_volume))))
       [Pad; NoFill].
Proof.
  split; [reflexivity|]. split; [vm_compute; tauto|].
  repeat (apply Forall_cons; [intros H; vm_compute in H;
                              destruct H as [H|[H|[]]]; discriminate|]).
  apply Forall_nil.
Qed.

(** * Further properties of the code *)

(** ** More on the SIMILAR relationships *)

Lemma fsub_finite (x y : fnum) (d : Q) :
  fabs (x - y)%F = Fin d -> exists p q, x = Fin p /\ y = Fin q.
Proof.
  destruct x as [p| | |], y as [q| | |]; simpl; try discriminate.
  intros _. now exists p, q.
Qed.

(** Where a SIMILAR write comes from: an iteration [(i, j)], [i < j], on two
    trades with finite opens whose distance [d] is below the threshold. *)
Lemma similar_write_origin (threshold : fnum) (trade_list : list (Z * fnum))
  (w : write) :
  In w (writes (create_similar threshold trade_list)) ->
  exists i j a b p q d,
    (i < j < length trade_list)%nat
    /\ nth_error trade_list i = Some (a, Fin p)
    /\ nth_error trade_list j = Some (b, Fin q)
    /\ fabs (Fin p - Fin q)%F = Fin d /\ 0 <= d
    /\ (Fin d <? threshold)%F = true
    /\ w = create_similar_relationship a b (Fin (1 / (d + (1 # 1000000)))).
Proof.
  rewrite create_similar_trace. unfold writes at 1. cbn [fst].
  intros Hin. apply in_flat_map in Hin as [[i j] [Hij Hw]].
  apply in_pairs in Hij. cbn [fst snd] in Hw.
  destruct (nth_error trade_list i) as [[a x]|] eqn:Ei;
    [|apply nth_error_None in Ei; lia].
  destruct (nth_error trade_list j) as [[b y]|] eqn:Ej;
    [|apply nth_error_None in Ej; lia].
  pose proof (similar_body_spec threshold trade_list i j Ei Ej) as Hspec.
  destruct (fabs (x - y) <? threshold)%F eqn:Hlt.
  - destruct Hspec as [d [Hd [_ Hbody]]]. rewrite Hbody in Hw.
    destruct Hw as [<-|[]].
    destruct (fsub_finite _ _ Hd) as [p [q [-> ->]]].
    assert (Hnn : 0 <= d).
    { assert (E : Qabs (p + - q) = d)
        by (cbn [fsub fneg fadd fabs] in Hd; congruence).
      rewrite <- E. apply Qabs_nonneg. }
    exists i, j, a, b, p, q, d. rewrite Hd in Hlt.
    repeat split; try assumption; lia.
  - rewrite Hspec in Hw. destruct Hw.
Qed.

Lemma flt_finite (d t : Q) : (Fin d <? Fin t)%F = true -> d < t.
Proof.
  simpl. destruct (d ?= t) eqn:E; try discriminate. intros _.
  now apply Qlt_alt.
Qed.

(** X1.  With a finite threshold [t], every SIMILAR relationship written
    carries a finite weight above [1 / (t + 1e-6)] and at most [1e6], the
    weight of two equal opens. *)
Theorem similarity_weight_bounds (t : Q) (trade_list : list (Z * fnum))
  (a b : Z) (similarity : fnum) :
  In (create_similar_relationship a b similarity)
     (writes (create_similar (Fin t) trade_list)) ->
  exists s, similarity = Fin s
            /\ 1 / (t + (1 # 1000000)) < s /\ s <= 1000000.
Proof.
  intros Hin.
  apply similar_write_origin in Hin
    as [i [j [a' [b' [p [q [d [_ [_ [_ [_ [Hd [Hlt Hw]]]]]]]]]]]]].
  injection Hw as _ _ ->. apply flt_finite in Hlt.
  exists (1 / (d + (1 # 1000000))). split; [reflexivity|]. split.
  - apply Qlt_shift_div_l; [lra|].
    unfold Qdiv. rewrite Qmult_1_l.
    setoid_replace (/ (t + (1 # 1000000)) * (d + (1 # 1000000)))
      with ((d + (1 # 1000000)) / (t + (1 # 1000000))) by (unfold Qdiv; ring).
    apply Qlt_shift_div_r; lra.
  - apply Qle_shift_div_r; lra.
Qed.

Lemma similarity_weight_bounds_witness :
  exists s,
    Fin (1 / (Qabs ((11002 # 10000) + - (11004 # 10000)) + (1 # 1000000)))
      = Fin s
    /\ 1 / ((5 # 10000) + (1 # 1000000)) < s /\ s <= 1000000.
Proof.
  apply (@similarity_weight_bounds (5 # 10000)
           (trade_list_of (annotated_rows Pad csv_sample)) 60 180).
  vm_compute. left. reflexivity.
Defined.

Lemma pairs_from_length (n k a : nat) :
  (a + k = n)%nat ->
  (2 * length (flat_map (fun i => map (pair i) (range (i + 1) n)) (seq a k))
   = k * (k - 1))%nat.
Proof.
  revert a. induction k as [|k IH]; intros a Hn; [reflexivity|].
  cbn [seq flat_map]. rewrite length_app, length_map.
  unfold range at 1. rewrite length_seq.
  specialize (IH (S a) ltac:(lia)). nia.
Qed.

Lemma pairs_length (n : nat) : (2 * length (pairs n) = n * (n - 1))%nat.
Proof.
  unfold pairs, range. rewrite Nat.sub_0_r. now apply pairs_from_length.
Qed.

Lemma similar_body_at_most_one (threshold : fnum)
  (trade_list : list (Z * fnum)) (i j : nat) :
  (length (writes (similar_body threshold trade_list i j)) <= 1)%nat.
Proof.
  unfold similar_body, getitem.
  destruct (nth_error trade_list i) as [[a x]|]; simpl; [|lia].
  destruct (nth_error trade_list j) as [[b y]|]; simpl; [|lia].
  destruct (fabs (x - y) <? threshold)%F; simpl; [|lia].
  unfold truediv. destruct (py_truediv _ _); simpl; lia.
Qed.

Lemma flat_map_length_le {A B : Type} (f : A -> list B) (l : list A) :
  (forall x, (length (f x) <= 1)%nat) ->
  (length (flat_map f l) <= length l)%nat.
Proof.
  intros Hf. induction l as [|x t IH]; simpl; [lia|].
  rewrite length_app. specialize (Hf x). lia.
Qed.

Lemma create_similar_count (threshold : fnum) (trade_list : list (Z * fnum)) :
  (2 * length (writes (create_similar threshold trade_list))
   <= length trade_list * (length trade_list - 1))%nat.
Proof.
  rewrite create_similar_trace. unfold writes at 1. cbn [fst].
  rewrite <- pairs_length.
  pose proof (flat_map_length_le
                (fun p => writes (similar_body threshold trade_list
                                    (fst p) (snd p)))
                (pairs (length trade_list))
                (fun p => similar_body_at_most_one _ _ _ _)).
  lia.
Qed.

Lemma filter_length_le {A : Type} (p : A -> bool) (l : list A) :
  (length (filter p l) <= length l)%nat.
Proof.
  induction l as [|x t IH]; simpl; [lia|]. destruct (p x); simpl; lia.
Qed.

Lemma drop_duplicates_from_length (rows seen : list raw_row) :
  (length (drop_duplicates_from seen rows) <= length rows)%nat.
Proof.
  revert seen. induction rows as [|r t IH]; intros seen; simpl; [lia|].
  destruct (existsb (raw_eqb r) seen); simpl;
    [specialize (IH seen)|specialize (IH (r :: seen))]; lia.
Qed.

Lemma annotate_length (str_to_float : string -> option fnum)
  (sqrtQ : Q -> Q) (fill : fill_method) (csv : list raw_row) :
  (length (annotate str_to_float sqrtQ fill csv) <= length csv - 1)%nat.
Proof.
  rewrite <- (length_map (fun r : annotated => scored_candle r)).
  rewrite annotate_candles, length_map.
  pose proof (filter_length_le
                (fun row : candle => fne (Volume row) (Fin 0))
                (map (coerce str_to_float) (drop_duplicates csv))) as Hclean.
  rewrite length_map in Hclean.
  pose proof (drop_duplicates_from_length csv []) as Hdd.
  fold (drop_duplicates csv) in Hdd.
  fold (load_and_clean_data str_to_float csv) in Hclean.
  destruct (load_and_clean_data str_to_float csv) as [|first rest] eqn:E;
    [simpl; lia|].
  destruct (with_return_cons fill first rest) as [returns ->].
  cbn [filter snd notna isna negb].
  pose proof (filter_length_le (fun rr : candle * fnum => notna (snd rr))
                (combine rest returns)) as Hf.
  rewrite length_combine in Hf. simpl in Hclean. lia.
Qed.

Lemma create_consecutive_trace_writes (ids : list Z) :
  writes (create_consecutive ids) =
    map (fun e => create_consecutive_relationship (fst e) (snd e))
        (consecutive_pairs ids).
Proof. now rewrite create_consecutive_trace. Qed.

Lemma next_edges_app (u v : list write) :
  next_edges (u ++ v) = next_edges u ++ next_edges v.
Proof. apply flat_map_app. Qed.

Lemma next_edges_nodes (data : list annotated) :
  next_edges (map (fun row => create_trade_node (trade_of row)) data) = [].
Proof.
  unfold next_edges. induction data as [|r t IH]; [reflexivity|exact IH].
Qed.

Lemma next_edges_none (ws : list write) :
  (forall w, In w ws -> exists a b s, w = create_similar_relationship a b s) ->
  next_edges ws = [].
Proof.
  unfold next_edges. induction ws as [|w t IH]; intros H; [reflexivity|].
  destruct (H w (or_introl eq_refl)) as [a [b [s ->]]]. simpl.
  apply IH. intros w' Hw'. apply H. now right.
Qed.

Lemma next_edges_create_similar (threshold : fnum)
  (trade_list : list (Z * fnum)) :
  next_edges (writes (create_similar threshold trade_list)) = [].
Proof.
  apply next_edges_none. intros w Hw.
  apply similar_write_origin in Hw
    as [i [j [a [b [p [q [d [_ [_ [_ [_ [_ [_ ->]]]]]]]]]]]]].
  now eexists _, _, _.
Qed.

Lemma create_graph_writes (str_to_float : string -> option fnum)
  (sqrtQ : Q -> Q) (fill : fill_method) (csv : list raw_row) :
  writes (create_graph str_to_float sqrtQ fill csv) =
    map (fun row => create_trade_node (trade_of row))
        (annotate str_to_float sqrtQ fill csv)
    ++ writes (create_consecutive
                 (chronological_ids (annotate str_to_float sqrtQ fill csv)))
    ++ writes (create_similar SIMILAR_THRESHOLD
                 (trade_list_of (annotate str_to_float sqrtQ fill csv))).
Proof.
  rewrite create_graph_trace, create_consecutive_trace, create_similar_trace.
  reflexivity.
Qed.

(** X2.  On the rows of a file that was read (every timestamp parsed),
    the three loops of the script raise neither an IndexError nor a
    ZeroDivisionError: the run ends normally, having written one node for
    each of the [n] annotated rows, [n - 1] NEXT relationships and at most
    [n (n - 1) / 2] SIMILAR relationships, where [n] is at most the number
    of rows read less one. *)
Theorem run_write_counts (str_to_float : string -> option fnum)
  (sqrtQ : Q -> Q) (fill : fill_method) (csv : list raw_row) :
  let n := length (annotate str_to_float sqrtQ fill csv) in
  let trace := writes (create_graph str_to_float sqrtQ fill csv) in
  outcome (create_graph str_to_float sqrtQ fill csv) = inl tt
  /\ (n <= length csv - 1)%nat
  /\ length (node_ids trace) = n
  /\ length (next_edges trace) = (n - 1)%nat
  /\ (2 * (length trace - n - (n - 1)) <= n * (n - 1))%nat
  /\ (2 * length trace <= n * n + 3 * n)%nat.
Proof.
  intros n trace. subst trace.
  pose proof (create_similar_count SIMILAR_THRESHOLD
                (trade_list_of (annotate str_to_float sqrtQ fill csv))) as Hs.
  unfold trade_list_of at 2 3 in Hs. rewrite length_map in Hs. fold n in Hs.
  assert (Hids : length (chronological_ids
                           (annotate str_to_float sqrtQ fill csv)) = n).
  { rewrite chronological_ids_sort, (Permutation_length (sort_perm _ _)).
    apply length_map. }
  split; [now rewrite create_graph_trace|].
  split; [apply annotate_length|].
  split; [rewrite node_ids_create_graph; apply length_map|].
  rewrite create_graph_writes. split.
  - rewrite !next_edges_app, next_edges_nodes, next_edges_create_similar.
    rewrite app_nil_r. cbn [app].
    now rewrite next_edges_create_consecutive, consecutive_pairs_length, Hids.
  - rewrite !length_app, length_map, create_consecutive_trace_writes.
    rewrite length_map, consecutive_pairs_length, Hids.
    fold n. split; nia.
Qed.

Lemma same_id_same_entry (trade_list : list (Z * fnum)) (i j : nat)
  (a : Z) (x y : fnum) :
  NoDup (map fst trade_list) ->
  nth_error trade_list i = Some (a, x) ->
  nth_error trade_list j = Some (a, y) ->
  i = j /\ x = y.
Proof.
  intros Hnd Hi Hj.
  assert (Heq : i = j).
  { apply (proj1 (NoDup_nth_error (map fst trade_list)) Hnd).
    - rewrite length_map. apply nth_error_Some. congruence.
    - now rewrite !nth_error_map, Hi, Hj. }
  subst j. split; [reflexivity|congruence].
Qed.

Lemma NoDup_flat_map_apart {A B : Type} (f : A -> list B) (l : list A) :
  NoDup l ->
  (forall x, In x l -> NoDup (f x)) ->
  (forall x y b, In x l -> In y l -> In b (f x) -> In b (f y) -> x = y) ->
  NoDup (flat_map f l).
Proof.
  induction 1 as [|x t Hx Ht IH]; intros Hf Hapart; [constructor|].
  cbn [flat_map]. apply NoDup_app.
  - apply Hf. now left.
  - apply IH; [intros y Hy; apply Hf; now right|].
    intros y z b Hy Hz. apply Hapart; now right.
  - intros b Hb Hb'. apply in_flat_map in Hb' as [y [Hy Hby]].
    assert (x = y) by (apply (Hapart x y b); auto; [now left|now right]).
    subst y. contradiction.
Qed.

(** The ids of the write of one pair of positions, when there is one. *)
Lemma similar_body_endpoints (threshold : fnum)
  (trade_list : list (Z * fnum)) (i j : nat) (e : list Z) :
  In e (map endpoints (writes (similar_body threshold trade_list i j))) ->
  exists a b x y,
    nth_error trade_list i = Some (a, x)
    /\ nth_error trade_list j = Some (b, y) /\ e = [a; b].
Proof.
  unfold similar_body, getitem.
  destruct (nth_error trade_list i) as [[a x]|] eqn:Ei; [|intros []].
  destruct (nth_error trade_list j) as [[b y]|] eqn:Ej; [|intros []].
  simpl. destruct (fabs (x - y) <? threshold)%F; [|intros []].
  unfold truediv. destruct (py_truediv _ _); simpl; [|intros []].
  intros [<-|[]]. now exists a, b, x, y.
Qed.

(** X3.  When the trades have distinct ids, no two SIMILAR writes of a run
    have the same pair of ids, so that a relationship is written at most
    once for a pair of trades; a SIMILAR relationship never joins a trade to
    itself and is never written in both directions. *)
Theorem similar_edges_once_one_way (threshold : fnum)
  (trade_list : list (Z * fnum)) :
  NoDup (map fst trade_list) ->
  let trace := writes (create_similar threshold trade_list) in
  NoDup (map endpoints trace)
  /\ forall a b s,
       In (create_similar_relationship a b s) trace ->
       a <> b
       /\ forall s', ~ In (create_similar_relationship b a s') trace.
Proof.
  intros Hnd trace. split.
  - unfold trace. rewrite create_similar_trace. unfold writes at 1.
    cbn [fst]. rewrite map_of_flat_map.
    apply NoDup_flat_map_apart; [apply NoDup_pairs| |].
    + intros [i j] _. cbn [fst snd].
      pose proof (similar_body_at_most_one threshold trade_list i j) as Hlen.
      rewrite <- (length_map endpoints) in Hlen.
      destruct (map endpoints _) as [|e [|e' t]]; simpl in Hlen;
        [constructor|repeat constructor; intros []|lia].
    + intros [i j] [i' j'] e _ _ He He'. cbn [fst snd] in He, He'.
      apply similar_body_endpoints in He
        as [a [b [x [y [Hi [Hj ->]]]]]].
      apply similar_body_endpoints in He'
        as [a' [b' [x' [y' [Hi' [Hj' E]]]]]].
      injection E as <- <-.
      destruct (same_id_same_entry _ _ _ Hnd Hi Hi') as [-> _].
      destruct (same_id_same_entry _ _ _ Hnd Hj Hj') as [-> _].
      reflexivity.
  - intros a b s Hin.
    apply similar_write_origin in Hin
      as [i [j [a0 [b0 [p [q [d [Hij [Hi [Hj [Hd [_ [_ Hw]]]]]]]]]]]]].
    injection Hw as -> -> ->.
    split.
    + intros ->. destruct (same_id_same_entry _ _ _ Hnd Hi Hj). lia.
    + intros s' Hrev.
      apply similar_write_origin in Hrev
        as [i' [j' [a1 [b1 [p' [q' [d' [Hij' [Hi' [Hj' [_ [_ [_ Hw]]]]]]]]]]]]].
      injection Hw as -> -> _.
      destruct (same_id_same_entry _ _ _ Hnd Hi Hj') as [-> _].
      destruct (same_id_same_entry _ _ _ Hnd Hj Hi') as [-> _]. lia.
Qed.

Lemma similar_edges_once_one_way_witness :
  let trace := writes (create_similar SIMILAR_THRESHOLD
                         (trade_list_of (annotated_rows Pad csv_sample))) in
  NoDup (map endpoints trace)
  /\ (60 <> 180)%Z
  /\ forall s', ~ In (create_similar_relationship 180 60 s') trace.
Proof.
  destruct (@similar_edges_once_one_way SIMILAR_THRESHOLD
              (trade_list_of (annotated_rows Pad csv_sample)))
    as [Honce Hway].
  - vm_compute. repeat (constructor; [simpl; lia|]). constructor.
  - split; [exact Honce|].
    apply (Hway 60%Z 180%Z
             (Fin (1 / (Qabs ((11002 # 10000) + - (11004 # 10000))
                        + (1 # 1000000))))).
    vm_compute. left. reflexivity.
Defined.

(** X4.  When the trades have distinct ids, a trade whose open is missing
    or infinite is at neither end of any SIMILAR relationship. *)
Theorem no_similar_edge_without_open (threshold : fnum)
  (trade_list : list (Z * fnum)) (a : Z) (x : fnum) (w : write) :
  NoDup (map fst trade_list) ->
  In (a, x) trade_list ->
  is_finite x = false ->
  In w (writes (create_similar threshold trade_list)) ->
  ~ In a (endpoints w).
Proof.
  intros Hnd Hax Hx Hw Hend.
  apply In_nth_error in Hax as [k Hk].
  apply similar_write_origin in Hw
    as [i [j [a0 [b0 [p [q [d [_ [Hi [Hj [_ [_ [_ ->]]]]]]]]]]]]].
  destruct Hend as [<-|[<-|[]]].
  - destruct (same_id_same_entry _ _ _ Hnd Hk Hi) as [_ ->]. discriminate.
  - destruct (same_id_same_entry _ _ _ Hnd Hk Hj) as [_ ->]. discriminate.
Qed.

Lemma no_similar_edge_without_open_witness :
  ~ In 120%Z
       (endpoints
          (create_similar_relationship 60 180
             (Fin (1 / (Qabs ((11000 # 10000) + - (11002 # 10000))
                        + (1 # 1000000)))))).
Proof.
  apply (@no_similar_edge_without_open SIMILAR_THRESHOLD
           trades_with_missing_open 120 NaN).
  - vm_compute. repeat (constructor; [simpl; lia|]). constructor.
  - simpl. tauto.
  - reflexivity.
  - vm_compute. left. reflexivity.
Defined.

(** ** More on the returns *)

Lemma ffill_from_present (col : list fnum) (last : fnum) :
  Forall (fun x => isna x = false) col -> ffill_from last col = col.
Proof.
  intros H. revert last. induction H as [|x t Hx _ IH]; intros last;
    [reflexivity|].
  simpl. rewrite Hx. now rewrite IH.
Qed.

Lemma pct_change_same_without_missing (col : list fnum) :
  Forall (fun x => isna x = false) col ->
  pct_change Pad col = pct_change NoFill col.
Proof.
  intros H. unfold pct_change, ffill. now rewrite ffill_from_present.
Qed.

(** X5.  On a file whose cleaned frame has no missing close, the two
    defaults of [pct_change] give the same annotated frame and the same
    writes. *)
Theorem fill_default_irrelevant_without_missing_close
  (str_to_float : string -> option fnum) (sqrtQ : Q -> Q)
  (csv : list raw_row) :
  Forall (fun row => isna (Close row) = false)
         (load_and_clean_data str_to_float csv) ->
  annotate str_to_float sqrtQ Pad csv = annotate str_to_float sqrtQ NoFill csv
  /\ create_graph str_to_float sqrtQ Pad csv
     = create_graph str_to_float sqrtQ NoFill csv.
Proof.
  intros H.
  assert (Hann : annotate str_to_float sqrtQ Pad csv
                 = annotate str_to_float sqrtQ NoFill csv).
  { unfold annotate, detect_outliers, with_return.
    rewrite pct_change_same_without_missing; [reflexivity|].
    now apply Forall_map. }
  split; [exact Hann|]. unfold create_graph. now rewrite Hann.
Qed.

Lemma fill_default_irrelevant_without_missing_close_witness :
  annotate decimal_of_string sqrt_micro Pad csv_sample
  = annotate decimal_of_string sqrt_micro NoFill csv_sample.
Proof.
  apply (@fill_default_irrelevant_without_missing_close decimal_of_string
           sqrt_micro csv_sample).
  vm_compute. repeat constructor.
Defined.

(** The quotient of a number by a number other than 0, less 1, is not
    NaN. *)
Lemma returns_after_defined (col : list fnum) (p : Q) :
  ~ p == 0 ->
  Forall (fun x => exists c, x = Fin c /\ ~ c == 0) col ->
  Forall (fun r => notna r = true)
         (map (fun xp => (fst xp / snd xp - Fin 1)%F)
              (with_previous (Fin p) col)).
Proof.
  intros Hp H. revert p Hp. induction H as [|x t Hx _ IH];
    intros p Hp; [constructor|].
  destruct Hx as [c [-> Hc]]. cbn [with_previous map fst snd].
  constructor; [|now apply IH].
  cbn [fdiv]. destruct (p ?= 0) eqn:E; [|reflexivity|reflexivity].
  apply Qeq_alt in E. contradiction.
Qed.

Lemma filter_all {A : Type} (p : A -> bool) (l : list A) :
  Forall (fun x => p x = true) l -> filter p l = l.
Proof.
  induction 1 as [|x t Hx _ IH]; [reflexivity|].
  simpl. now rewrite Hx, IH.
Qed.

Lemma combine_fst {A B : Type} (l : list A) (l' : list B) :
  length l = length l' -> map fst (combine l l') = l.
Proof.
  revert l'. induction l as [|x t IH]; intros [|y t'] H; try discriminate;
    [reflexivity|].
  simpl. f_equal. apply IH. simpl in H. lia.
Qed.

(** X6.  When every close of the frame is a number other than 0,
    [detect_outliers] drops the first row and nothing else: its rows are the
    rows after the first, in order. *)
Theorem detect_outliers_drops_first_row_only (sqrtQ : Q -> Q)
  (fill : fill_method) (threshold : fnum) (data : list candle) :
  Forall (fun row => exists c, Close row = Fin c /\ ~ c == 0) data ->
  map scored_candle (detect_outliers sqrtQ fill threshold data) = tl data.
Proof.
  intros H.
  assert (Hcol : Forall (fun x => exists c, x = Fin c /\ ~ c == 0)
                        (map Close data)) by now apply Forall_map.
  assert (Hpresent : Forall (fun x => isna x = false) (map Close data)).
  { eapply Forall_impl; [|exact Hcol]. now intros x [c [-> _]]. }
  assert (Hfill : pct_change fill (map Close data)
                  = pct_change NoFill (map Close data))
    by (destruct fill; [now apply pct_change_same_without_missing|reflexivity]).
  assert (Hkept : filter (fun rr : candle * fnum => notna (snd rr))
                         (with_return fill data)
                  = combine (tl data) (tl (pct_change fill (map Close data)))).
  { unfold with_return. rewrite Hfill.
    destruct data as [|first rest]; [reflexivity|].
    unfold pct_change. rewrite combine_shift. cbn [map] in *.
    inversion_clear Hcol as [|? ? [c [Hc Hc0]] Hrest]. rewrite Hc.
    pose proof (returns_after_defined Hc0 Hrest) as Hdef.
    cbn [with_previous map tl combine filter snd fst fdiv fsub fadd fneg
         notna isna negb].
    apply filter_all. apply Forall_forall. intros [r ret] Hin. cbn [snd].
    apply in_combine_r in Hin. rewrite Forall_forall in Hdef.
    exact (Hdef ret Hin). }
  pose proof (detect_outliers_rows sqrtQ fill threshold data) as Hrows.
  rewrite Hkept in Hrows.
  rewrite <- (map_map (fun r : scored => (scored_candle r, Return r)) fst).
  rewrite Hrows. apply combine_fst.
  pose proof (pct_change_length fill (map Close data)) as Hlen.
  rewrite length_map in Hlen.
  destruct data, (pct_change fill _); simpl in *; lia.
Qed.

Lemma detect_outliers_drops_first_row_only_witness :
  map scored_candle (detect_outliers sqrt_micro Pad (Fin 3) sample_clean)
  = tl sample_clean.
Proof.
  apply (@detect_outliers_drops_first_row_only sqrt_micro Pad (Fin 3)
           sample_clean).
  vm_compute.
  repeat (constructor;
          [eexists; split; [reflexivity|intros H; vm_compute in H;
                                        discriminate]|]).
  constructor.
Defined.

(** ** How the two flags relate *)

Lemma detect_outliers_flag (sqrtQ : Q -> Q) (fill : fill_method)
  (threshold : fnum) (data : list candle) (row : scored) :
  In row (detect_outliers sqrtQ fill threshold data) ->
  let returns := map Return (detect_outliers sqrtQ fill threshold data) in
  is_outlier row =
    (fabs ((Return row - mean returns) / std sqrtQ returns) >? threshold)%F.
Proof.
  intros Hin. cbv zeta. unfold detect_outliers in *.
  rewrite map_map. cbn [Return].
  apply in_map_iff in Hin as [rr [<- _]]. reflexivity.
Qed.

Lemma compute_guideline_deviation_flag (sqrtQ : Q -> Q) (data : list scored)
  (row : annotated) :
  In row (compute_guideline_deviation sqrtQ data) ->
  In (annotated_scored row) data
  /\ deviates_guideline row =
       ((Volume row <? quantile (5 # 100)
                         (map (fun r : scored => Volume r) data))
        || (Volume row >? quantile (95 # 100)
                            (map (fun r : scored => Volume r) data)))%F
       || ((Return row <? mean (map Return data)
                          - Fin 2 * std sqrtQ (map Return data))
           || (Return row >? mean (map Return data)
                             + Fin 2 * std sqrtQ (map Return data)))%F.
Proof.
  unfold compute_guideline_deviation. intros Hin.
  apply in_map_iff in Hin as [r [<- Hr]]. now split.
Qed.

Lemma fdiv_nan (x : fnum) : (x / NaN)%F = NaN.
Proof. now destruct x. Qed.

Lemma std_short (sqrtQ : Q -> Q) (col : list fnum) :
  (length col <= 1)%nat -> std sqrtQ col = NaN.
Proof.
  intros H. unfold std.
  pose proof (filter_length_le notna col) as Hf. fold (dropna col) in Hf.
  assert (E : (length (dropna col) <=? 1)%nat = true)
    by (apply Nat.leb_le; lia).
  now rewrite E.
Qed.

Lemma quantile_single (q : Q) (v : fnum) :
  (v <? quantile q [v])%F = false /\ (v >? quantile q [v])%F = false.
Proof.
  assert (Hfloor : Qfloor (q * inject_Z 0) = 0%Z).
  { unfold Qfloor, Qmult. cbn [Qnum Qden inject_Z].
    rewrite Z.mul_0_r. apply Zdiv_0_l. }
  unfold quantile, dropna, fgt.
  destruct v as [a| | |];
    cbn [filter notna isna negb sort insert length Z.of_nat];
    try rewrite Hfloor;
    cbn [Z.to_nat Nat.min nth fsub fneg fadd fmul flt];
    try (split; reflexivity).
  set (res := a + (a + - a) * (q * inject_Z 0 - inject_Z 0)).
  assert (E : res == a) by (unfold res; ring).
  split.
  - destruct (a ?= res) eqn:C; try reflexivity.
    apply Qlt_alt in C. rewrite E in C. lra.
  - destruct (res ?= a) eqn:C; try reflexivity.
    apply Qlt_alt in C. rewrite E in C. lra.
Qed.

(** X7.  When fewer than two rows of the file have a return, no row is
    flagged: [is_outlier] and [deviates_guideline] are false on the whole
    annotated frame. *)
Theorem no_flag_with_fewer_than_two_returns
  (str_to_float : string -> option fnum) (sqrtQ : Q -> Q)
  (fill : fill_method) (csv : list raw_row) :
  (length (annotate str_to_float sqrtQ fill csv) <= 1)%nat ->
  Forall (fun row : annotated =>
            is_outlier row = false /\ deviates_guideline row = false)
         (annotate str_to_float sqrtQ fill csv).
Proof.
  unfold annotate.
  set (D := detect_outliers sqrtQ fill (Fin 3)
              (load_and_clean_data str_to_float csv)).
  intros Hlen.
  rewrite <- (length_map annotated_scored),
    compute_guideline_deviation_rows in Hlen.
  apply Forall_forall. intros row Hrow.
  apply compute_guideline_deviation_flag in Hrow as [Hin ->].
  assert (Hstd : std sqrtQ (map Return D) = NaN)
    by (apply std_short; now rewrite length_map).
  split.
  - rewrite (detect_outliers_flag _ _ _ _ _ Hin). fold D.
    rewrite Hstd, fdiv_nan. unfold fgt. apply flt_nan.
  - rewrite Hstd.
    assert (Hvol : map (fun r : scored => Volume r) D
                   = [Volume (annotated_scored row)]).
    { destruct D as [|r [|r' t]]; [contradiction| |simpl in Hlen; lia].
      destruct Hin as [->|[]]. reflexivity. }
    rewrite Hvol.
    destruct (quantile_single (5 # 100) (Volume (annotated_scored row)))
      as [-> _].
    destruct (quantile_single (95 # 100) (Volume (annotated_scored row)))
      as [_ ->].
    cbn [orb]. unfold fgt.
    destruct (mean (map Return D)), (Return (annotated_scored row));
      reflexivity.
Qed.

Lemma no_flag_with_fewer_than_two_returns_witness :
  Forall (fun row : annotated =>
            is_outlier row = false /\ deviates_guideline row = false)
         (annotate decimal_of_string sqrt_micro Pad
            (firstn 2 csv_missing_volume)).
Proof.
  apply no_flag_with_fewer_than_two_returns.
  vm_compute. lia.
Defined.

(** ** The counts of the bar chart *)

(** Every row is counted once among the rows without a flag, the outliers
    and the guideline deviations, but for the rows with both flags, which
    are counted twice. *)
Lemma flag_counts (rows : list annotated) :
  (Z.of_nat (length rows) + count_rows both_flags rows
   = count_rows no_flag rows
     + sum_bool (map (fun r : annotated => is_outlier r) rows)
     + sum_bool (map deviates_guideline rows))%Z.
Proof.
  unfold count_rows, both_flags, no_flag.
  induction rows as [|r t IH]; [reflexivity|].
  cbn [map sum_bool fold_right filter length].
  fold (sum_bool (map (fun r : annotated => is_outlier r) t)).
  fold (sum_bool (map deviates_guideline t)).
  destruct (is_outlier r), (deviates_guideline r);
    cbn [andb negb length]; lia.
Qed.

Lemma Chart_init_df (data : list annotated) (self : Chart) :
  Chart_init data = Some self -> df self = firstn 100 data.
Proof.
  unfold Chart_init. destruct (add_next_edges _ _ _); [|discriminate].
  intros H. injection H as <-. reflexivity.
Qed.

(** X9.  In the counts of [bar_chart], whatever the frame charted, the three
    bars add up to the number of rows charted (at most 100), and "Normal"
    is not the number of rows without a flag: a row with both flags is
    taken off twice, so "Normal" is the number of rows without a flag less
    the number of rows with both. *)
Theorem bar_chart_normal_undercounts (data : list annotated) (self : Chart) :
  Chart_init data = Some self ->
  let counts := bar_chart self in
  (length (df self) <= 100)%nat
  /\ (Outlier counts + Guideline_Deviation counts + Normal counts
      = Z.of_nat (length (df self)))%Z
  /\ (Normal counts
      = count_rows no_flag (df self) - count_rows both_flags (df self))%Z.
Proof.
  intros Hinit. cbv zeta. unfold bar_chart.
  cbn [Outlier Guideline_Deviation Normal].
  pose proof (Chart_init_df _ Hinit) as Hdf.
  pose proof (flag_counts (df self)) as Hcount.
  split; [rewrite Hdf; apply firstn_le_length|].
  split; lia.
Qed.

Lemma bar_chart_normal_undercounts_witness :
  let self := chart_of (annotated_rows Pad csv_one_jump) in
  count_rows both_flags (df self) = 1%Z
  /\ (Normal (bar_chart self)
      = count_rows no_flag (df self) - count_rows both_flags (df self))%Z.
Proof.
  split; [vm_compute; reflexivity|].
  apply (@bar_chart_normal_undercounts (annotated_rows Pad csv_one_jump)).
  vm_compute. reflexivity.
Defined.

(** ** More on [drop_duplicates] *)

Lemma float_same_refl (x : fnum) : float_same x x = true.
Proof.
  destruct x; simpl; try reflexivity. now apply Qeq_bool_iff.
Qed.

Lemma cell_eqb_refl (c : cell) : cell_eqb c c = true.
Proof.
  destruct c; simpl; [apply float_same_refl|apply String.eqb_refl].
Qed.

Lemma raw_eqb_refl (r : raw_row) : raw_eqb r r = true.
Proof.
  unfold raw_eqb. now rewrite Z.eqb_refl, !cell_eqb_refl.
Qed.

Lemma drop_duplicates_from_complete (rows seen : list raw_row) (r : raw_row) :
  In r rows ->
  existsb (raw_eqb r) seen = true
  \/ exists r', In r' (drop_duplicates_from seen rows) /\ raw_eqb r r' = true.
Proof.
  revert seen. induction rows as [|x t IH]; intros seen Hin; [contradiction|].
  simpl. destruct (existsb (raw_eqb x) seen) eqn:E.
  - destruct Hin as [->|Hin]; [now left|now apply IH].
  - destruct Hin as [->|Hin].
    + right. exists r. split; [now left|apply raw_eqb_refl].
    + destruct (IH (x :: seen) Hin) as [Hseen|[r' [Hr' Heq]]].
      * simpl in Hseen. apply orb_true_iff in Hseen as [Hx|Hseen];
          [|now left].
        right. exists x. split; [now left|exact Hx].
      * right. exists r'. split; [now right|exact Heq].
Qed.

Lemma drop_duplicates_from_fixed (rows seen : list raw_row) :
  Forall (fun r => existsb (raw_eqb r) seen = false) rows ->
  ForallOrdPairs (fun a b => raw_eqb a b = false) rows ->
  drop_duplicates_from seen rows = rows.
Proof.
  revert seen. induction rows as [|x t IH]; intros seen Hseen Hpairs;
    [reflexivity|].
  inversion_clear Hseen as [|? ? Hx Ht].
  inversion_clear Hpairs as [|? ? Hxt Hpt].
  simpl. rewrite Hx. f_equal. apply IH; [|exact Hpt].
  rewrite Forall_forall in *. intros r Hr. simpl.
  rewrite (raw_eqb_sym r x), (Hxt r Hr). now apply Ht.
Qed.

(** X10.  [drop_duplicates] loses no row without an equal: every row of the
    file has a row equal to it in every field among the rows kept; the rows
    kept are rows of the file, pairwise different; and removing duplicates
    a second time changes nothing. *)
Theorem drop_duplicates_keeps_one_of_each (csv : list raw_row) :
  (forall r, In r csv ->
     exists r', In r' (drop_duplicates csv) /\ raw_eqb r r' = true)
  /\ incl (drop_duplicates csv) csv
  /\ ForallOrdPairs (fun a b => raw_eqb a b = false) (drop_duplicates csv)
  /\ drop_duplicates (drop_duplicates csv) = drop_duplicates csv.
Proof.
  unfold drop_duplicates. split; [|split; [|split]].
  - intros r Hr.
    destruct (drop_duplicates_from_complete csv [] r Hr) as [H|H];
      [discriminate|exact H].
  - intros r Hr. now apply drop_duplicates_from_in in Hr.
  - apply drop_duplicates_from_distinct.
  - apply drop_duplicates_from_fixed;
      [now apply Forall_forall|apply drop_duplicates_from_distinct].
Qed.

Lemma drop_duplicates_keeps_one_of_each_witness :
  exists r', In r' (drop_duplicates csv_repeated)
             /\ raw_eqb (numeric_row 0 1 1 1 1 100) r' = true.
Proof.
  apply (proj1 (drop_duplicates_keeps_one_of_each csv_repeated)).
  simpl. tauto.
Defined.

(** ** The queries and the store *)

Lemma positions_from_length (nodes : list Trade.t) (k : nat) (id : Z) :
  length (positions_from k nodes id) = count_id nodes id.
Proof.
  unfold count_id. revert k. induction nodes as [|t rest IH]; intros k;
    [reflexivity|].
  simpl. rewrite length_app, IH.
  now destruct (Z.eqb (Trade.trade_id t) id).
Qed.

Lemma positions_from_spec (nodes : list Trade.t) (k p : nat) (id : Z) :
  In p (positions_from k nodes id) ->
  (k <= p < k + length nodes)%nat
  /\ exists t, nth_error nodes (p - k) = Some t /\ Trade.trade_id t = id.
Proof.
  revert k. induction nodes as [|t rest IH]; intros k Hin; [contradiction|].
  simpl in Hin. apply in_app_or in Hin as [Hin|Hin].
  - destruct (Z.eqb_spec (Trade.trade_id t) id) as [Heq|_]; [|contradiction].
    destruct Hin as [<-|[]]. split; [simpl; lia|].
    exists t. rewrite Nat.sub_diag. now split.
  - apply IH in Hin as [Hp [t' [Ht' Hid]]]. split; [simpl; lia|].
    exists t'. split; [|exact Hid].
    replace (p - k)%nat with (S (p - S k)) by lia. exact Ht'.
Qed.

Lemma product_length {A B C : Type} (f : A -> B -> C) (l : list A)
  (l' : list B) :
  length (flat_map (fun i => map (f i) l') l) = (length l * length l')%nat.
Proof.
  induction l as [|x t IH]; [reflexivity|].
  simpl. rewrite length_app, length_map, IH. reflexivity.
Qed.

Lemma create_between_length (store : graph_store) (a b : Z)
  (kind : rel_type) :
  length (create_between store a b kind)
  = (count_id (trades store) a * count_id (trades store) b)%nat.
Proof.
  unfold create_between, matching.
  rewrite (product_length (fun i j => {| rel_from := i; rel_to := j;
                                         rel_kind := kind |})).
  now rewrite !positions_from_length.
Qed.

Lemma create_between_ends (store : graph_store) (a b : Z) (kind : rel_type)
  (r : relationship) :
  In r (create_between store a b kind) ->
  rel_kind r = kind
  /\ (exists t, nth_error (trades store) (rel_from r) = Some t
                /\ Trade.trade_id t = a)
  /\ (exists t, nth_error (trades store) (rel_to r) = Some t
                /\ Trade.trade_id t = b).
Proof.
  unfold create_between, matching. intros Hin.
  apply in_flat_map in Hin as [i [Hi Hin]].
  apply in_map_iff in Hin as [j [<- Hj]]. cbn [rel_from rel_to rel_kind].
  apply positions_from_spec in Hi as [_ Hi], Hj as [_ Hj].
  rewrite Nat.sub_0_r in Hi, Hj. now repeat split.
Qed.

Lemma created_by_length (store : graph_store) (w : write) (a b : Z) :
  endpoints w = [a; b] ->
  length (created_by store w)
  = (count_id (trades store) a * count_id (trades store) b)%nat.
Proof.
  destruct w; simpl; intros H; try discriminate;
    injection H as <- <-; apply create_between_length.
Qed.

Lemma run_write_edge (store : graph_store) (w : write) :
  is_node_write w = false ->
  run_write store w =
    {| trades := trades store;
       relationships := relationships store ++ created_by store w |}.
Proof. destruct w; simpl; [discriminate|reflexivity|reflexivity]. Qed.

Lemma run_writes_app (store : graph_store) (u v : list write) :
  run_writes store (u ++ v) = run_writes (run_writes store u) v.
Proof. apply fold_left_app. Qed.

Lemma run_node_writes (data : list annotated) (store : graph_store) :
  run_writes store (map (fun row => create_trade_node (trade_of row)) data)
  = {| trades := trades store ++ map trade_of data;
       relationships := relationships store |}.
Proof.
  revert store. induction data as [|r t IH]; intros store.
  - simpl. rewrite app_nil_r. now destruct store.
  - cbn [map]. unfold run_writes in *. cbn [fold_left]. rewrite IH.
    cbn [run_write trades relationships]. now rewrite <- app_assoc.
Qed.

Lemma pair_count_created (store : graph_store) (w : write) :
  is_node_write w = false ->
  length (created_by store w) = pair_count (trades store) w.
Proof.
  unfold pair_count.
  destruct w; simpl; intros H; try discriminate; apply create_between_length.
Qed.

Lemma run_edge_writes (ws : list write) (store : graph_store) :
  Forall (fun w => is_node_write w = false) ws ->
  trades (run_writes store ws) = trades store
  /\ length (relationships (run_writes store ws))
     = (length (relationships store)
        + list_sum (map (pair_count (trades store)) ws))%nat.
Proof.
  intros H. revert store. induction H as [|w t Hw _ IH]; intros store.
  - simpl. split; [reflexivity|lia].
  - unfold run_writes in *. cbn [fold_left map list_sum].
    destruct (IH (run_write store w)) as [Ht Hr].
    rewrite Ht, Hr, (run_write_edge store w Hw). cbn [trades relationships].
    split; [reflexivity|].
    rewrite length_app, (pair_count_created store w Hw).
    unfold list_sum. cbn [fold_right]. lia.
Qed.

Lemma run_write_well_formed (store : graph_store) (w : write) :
  well_formed store -> well_formed (run_write store w).
Proof.
  unfold well_formed. intros Hwf.
  destruct w as [t|a b|a b s]; cbn [run_write trades relationships].
  - eapply Forall_impl; [|exact Hwf]. intros r [Hf Ht].
    rewrite length_app. simpl. lia.
  - apply Forall_app. split; [exact Hwf|]. apply Forall_forall. intros r Hr.
    apply create_between_ends in Hr as [_ [[t [Ht _]] [t' [Ht' _]]]].
    split; apply nth_error_Some; congruence.
  - apply Forall_app. split; [exact Hwf|]. apply Forall_forall. intros r Hr.
    apply create_between_ends in Hr as [_ [[t [Ht _]] [t' [Ht' _]]]].
    split; apply nth_error_Some; congruence.
Qed.

Lemma run_writes_well_formed (ws : list write) (store : graph_store) :
  well_formed store -> well_formed (run_writes store ws).
Proof.
  revert store. induction ws as [|w t IH]; intros store Hwf; [exact Hwf|].
  apply IH. now apply run_write_well_formed.
Qed.

Lemma list_sum_constant {A : Type} (f : A -> nat) (c : nat) (l : list A) :
  Forall (fun x => f x = c) l -> list_sum (map f l) = (c * length l)%nat.
Proof.
  induction 1 as [|x t Hx _ IH]; simpl; [lia|]. rewrite Hx, IH. lia.
Qed.

Lemma count_id_app (u v : list Trade.t) (id : Z) :
  count_id (u ++ v) id = (count_id u id + count_id v id)%nat.
Proof. unfold count_id. now rewrite filter_app, length_app. Qed.

Lemma count_id_rows (data : list annotated) (id : Z) :
  NoDup (map (fun r : annotated => Gmt_time r) data) ->
  In id (map (fun r : annotated => Gmt_time r) data) ->
  count_id (map trade_of data) id = 1%nat.
Proof.
  unfold count_id. induction data as [|r t IH]; intros Hnd Hin;
    [contradiction|].
  inversion_clear Hnd as [|? ? Hr Ht]. cbn [map filter trade_of Trade.trade_id].
  unfold isoformat. destruct (Z.eqb_spec (Gmt_time r) id) as [Heq|Hne].
  - cbn [length]. f_equal. apply length_zero_iff_nil.
    destruct (filter _ (map trade_of t)) as [|x l] eqn:E; [reflexivity|].
    exfalso. assert (Hx : In x (filter
                (fun t0 : Trade.t => (Trade.trade_id t0 =? id)%Z)
                (map trade_of t))) by (rewrite E; now left).
    apply filter_In in Hx as [Hx Hid]. apply in_map_iff in Hx as [r' [<- Hr']].
    apply Z.eqb_eq in Hid. cbn [trade_of Trade.trade_id] in Hid.
    unfold isoformat in Hid. apply Hr. rewrite Heq, <- Hid.
    now apply (in_map (fun r : annotated => Gmt_time r)).
  - apply IH; [exact Ht|]. destruct Hin as [Hin|Hin]; [contradiction|exact Hin].
Qed.

Section Store.

Variable str_to_float : string -> option fnum.
Variable sqrtQ : Q -> Q.
Variable fill : fill_method.
Variable csv : list raw_row.

Hypothesis distinct_timestamps :
  NoDup (map (fun r : annotated => Gmt_time r)
             (annotate str_to_float sqrtQ fill csv)).

(** On a store in which every id of the frame sits on [c] nodes, the two
    edge phases add [c * c] relationships for each of their writes. *)
Lemma edge_phases_on (store : graph_store) (c : nat) :
  (forall id,
     In id (map (fun r : annotated => Gmt_time r)
                (annotate str_to_float sqrtQ fill csv)) ->
     count_id (trades store) id = c) ->
  let E := writes (create_consecutive
                     (chronological_ids (annotate str_to_float sqrtQ fill csv)))
           ++ writes (create_similar SIMILAR_THRESHOLD
                        (trade_list_of (annotate str_to_float sqrtQ fill csv))) in
  trades (run_writes store E) = trades store
  /\ length (relationships (run_writes store E))
     = (length (relationships store) + c * c * length E)%nat.
Proof.
  intros Hc E.
  assert (HE : forall w, In w E ->
            is_node_write w = false
            /\ forall id, In id (endpoints w) ->
                 In id (map (fun r : annotated => Gmt_time r)
                            (annotate str_to_float sqrtQ fill csv))).
  { intros w Hw. apply edge_phases. unfold E in Hw.
    now rewrite create_consecutive_trace_writes, create_similar_trace in Hw. }
  destruct (@run_edge_writes E store) as [Ht Hr];
    [apply Forall_forall; intros w Hw; now apply HE|].
  split; [exact Ht|]. rewrite Hr. f_equal.
  apply list_sum_constant. apply Forall_forall. intros w Hw.
  destruct (HE w Hw) as [Hk Hends]. unfold pair_count.
  destruct w as [t|a b|a b s]; [discriminate| |];
    cbn [endpoints] in *; rewrite !Hc; try reflexivity;
    apply Hends; simpl; auto.
Qed.

(** X12.  Run against an empty store on a frame with distinct timestamps,
    the script leaves one node for each row, in the order of the rows, and
    one relationship for each of its edge writes: every [MATCH] finds
    exactly one pair of nodes. *)
Theorem first_run_one_relationship_per_write :
  let data := annotate str_to_float sqrtQ fill csv in
  let trace := writes (create_graph str_to_float sqrtQ fill csv) in
  let store := run_writes empty_store trace in
  trades store = map trade_of data
  /\ length (relationships store) = (length trace - length data)%nat
  /\ well_formed store.
Proof.
  cbv zeta.
  assert (Hcount : forall id,
            In id (map (fun r : annotated => Gmt_time r)
                       (annotate str_to_float sqrtQ fill csv)) ->
            count_id (map trade_of (annotate str_to_float sqrtQ fill csv)) id
            = 1%nat)
    by (intros id Hid; now apply count_id_rows).
  split; [|split]; [| |apply run_writes_well_formed; constructor];
    rewrite create_graph_writes, run_writes_app, run_node_writes;
    cbn [trades relationships empty_store app];
    destruct (@edge_phases_on
                {| trades := map trade_of
                               (annotate str_to_float sqrtQ fill csv);
                   relationships := [] |} 1%nat Hcount) as [Ht Hr].
  - exact Ht.
  - rewrite Hr. cbn [relationships length].
    rewrite !length_app, length_map. lia.
Qed.

(** X13.  Run a second time on the store the first run left, the script
    doubles the nodes, and each of its edge writes now finds four pairs of
    nodes: the store ends with five times the relationships of the first
    run. *)
Theorem second_run_multiplies_relationships :
  let data := annotate str_to_float sqrtQ fill csv in
  let trace := writes (create_graph str_to_float sqrtQ fill csv) in
  let once := run_writes empty_store trace in
  let twice := run_writes once trace in
  trades twice = map trade_of data ++ map trade_of data
  /\ length (relationships twice)
     = (5 * length (relationships once))%nat.
Proof.
  cbv zeta.
  assert (Hcount : forall id,
            In id (map (fun r : annotated => Gmt_time r)
                       (annotate str_to_float sqrtQ fill csv)) ->
            count_id (map trade_of (annotate str_to_float sqrtQ fill csv)) id
            = 1%nat)
    by (intros id Hid; now apply count_id_rows).
  destruct (@edge_phases_on
              {| trades := map trade_of
                             (annotate str_to_float sqrtQ fill csv);
                 relationships := [] |} 1%nat Hcount) as [Ht1 Hr1].
  cbv zeta in Ht1, Hr1. cbn [trades relationships length] in Ht1, Hr1.
  rewrite create_graph_writes.
  set (E := writes (create_consecutive _) ++ writes (create_similar _ _)) in *.
  rewrite !run_writes_app, !run_node_writes.
  cbn [trades relationships empty_store app]. rewrite Ht1.
  set (once := run_writes _ E) in *.
  destruct (@edge_phases_on
              {| trades := map trade_of
                             (annotate str_to_float sqrtQ fill csv)
                           ++ map trade_of
                                (annotate str_to_float sqrtQ fill csv);
                 relationships := relationships once |} 2%nat) as [Ht2 Hr2].
  { intros id Hid. cbn [trades]. rewrite count_id_app, (Hcount id Hid).
    reflexivity. }
  cbv zeta in Ht2, Hr2. cbn [trades relationships] in Ht2, Hr2. fold E in Ht2, Hr2.
  split; [exact Ht2|]. rewrite Hr2, Hr1. lia.
Qed.

End Store.

Lemma first_run_one_relationship_per_write_witness :
  trades (run_writes empty_store
            (writes (create_graph decimal_of_string sqrt_micro Pad csv_sample)))
  = map trade_of (annotated_rows Pad csv_sample).
Proof.
  apply (@first_run_one_relationship_per_write decimal_of_string sqrt_micro
           Pad csv_sample).
  vm_compute. repeat (constructor; [simpl; lia|]). constructor.
Defined.

Lemma second_run_multiplies_relationships_witness :
  let trace := writes (create_graph decimal_of_string sqrt_micro Pad
                         csv_sample) in
  length (relationships (run_writes (run_writes empty_store trace) trace))
  = (5 * length (relationships (run_writes empty_store trace)))%nat.
Proof.
  apply (@second_run_multiplies_relationships decimal_of_string sqrt_micro
           Pad csv_sample).
  vm_compute. repeat (constructor; [simpl; lia|]). constructor.
Defined.

(** ** More on the graph of [Chart.__init__] *)

Lemma add_node_keys (G : DiGraph) (n : Z) (a : Attrs.t) :
  map fst (nodes (add_node G n a))
  = if has_node G n then map fst (nodes G) else map fst (nodes G) ++ [n].
Proof.
  unfold add_node. destruct (has_node G n); cbn [nodes].
  - rewrite map_map. apply map_ext_in. intros p _.
    destruct (Z.eqb_spec (fst p) n) as [->|_]; reflexivity.
  - now rewrite map_app.
Qed.

Lemma add_node_edges (G : DiGraph) (n : Z) (a : Attrs.t) :
  edges (add_node G n a) = edges G.
Proof. unfold add_node. now destruct (has_node G n). Qed.

Lemma add_node_self (G : DiGraph) (n : Z) (a : Attrs.t) :
  In (n, Some a) (nodes (add_node G n a)).
Proof.
  unfold add_node. destruct (has_node G n) eqn:E; cbn [nodes].
  - apply has_node_spec, in_map_iff in E as [p [Hp Hin]].
    apply in_map_iff. exists p. split; [|exact Hin].
    apply Z.eqb_eq in Hp. now rewrite Hp.
  - apply in_or_app. right. now left.
Qed.

Lemma add_node_other (G : DiGraph) (n k : Z) (a : Attrs.t)
  (v : option Attrs.t) :
  k <> n -> In (k, v) (nodes G) -> In (k, v) (nodes (add_node G n a)).
Proof.
  intros Hk Hin. unfold add_node. destruct (has_node G n); cbn [nodes].
  - apply in_map_iff. exists (k, v). split; [|exact Hin].
    cbn [fst]. now destruct (Z.eqb_spec k n).
  - apply in_or_app. now left.
Qed.

Lemma add_rows_keys (rows : list annotated) (G : DiGraph) :
  NoDup (map fst (nodes G)) ->
  let G' := fold_left
              (fun G (row : annotated) =>
                 add_node G (isoformat (Gmt_time row)) (attrs_of row))
              rows G in
  NoDup (map fst (nodes G'))
  /\ (forall id, In id (map fst (nodes G')) <->
                 In id (map fst (nodes G))
                 \/ In id (map (fun r : annotated => Gmt_time r) rows))
  /\ edges G' = edges G.
Proof.
  revert G. induction rows as [|r t IH]; intros G Hnd; cbv zeta.
  - simpl. split; [exact Hnd|]. split; [tauto|reflexivity].
  - cbn [fold_left map].
    change (add_node G (isoformat (Gmt_time r)) (attrs_of r))
      with (add_node G (Gmt_time r) (attrs_of r)).
    set (G1 := add_node G (Gmt_time r) (attrs_of r)).
    assert (Hkeys : map fst (nodes G1)
                    = if has_node G (Gmt_time r) then map fst (nodes G)
                      else map fst (nodes G) ++ [Gmt_time r])
      by apply add_node_keys.
    assert (Hnd1 : NoDup (map fst (nodes G1))).
    { rewrite Hkeys. destruct (has_node G (Gmt_time r)) eqn:E; [exact Hnd|].
      apply NoDup_app; [exact Hnd|repeat constructor; auto|].
      intros x Hx [<-|[]]. apply has_node_spec in Hx. congruence. }
    destruct (IH G1 Hnd1) as [Hn [Hk He]]. cbv zeta in Hn, Hk, He.
    split; [exact Hn|]. split.
    + intros id. rewrite Hk, Hkeys.
      destruct (has_node G (Gmt_time r)) eqn:E.
      * apply has_node_spec in E. cbn [In]. split; [tauto|].
        intros [H|[<-|H]]; tauto.
      * rewrite in_app_iff. cbn [In]. tauto.
    + rewrite He. apply add_node_edges.
Qed.

Lemma add_rows_last (post pre : list annotated) (row : annotated)
  (G : DiGraph) :
  ~ In (Gmt_time row) (map (fun r : annotated => Gmt_time r) post) ->
  In (Gmt_time row, Some (attrs_of row))
     (nodes (fold_left
               (fun G (r : annotated) =>
                  add_node G (isoformat (Gmt_time r)) (attrs_of r))
               (pre ++ row :: post) G)).
Proof.
  intros Hpost. rewrite fold_left_app. cbn [fold_left].
  set (G1 := add_node _ (isoformat (Gmt_time row)) (attrs_of row)).
  assert (H1 : In (Gmt_time row, Some (attrs_of row)) (nodes G1))
    by apply add_node_self.
  clearbody G1. revert G1 H1 Hpost.
  induction post as [|r t IH]; intros G1 H1 Hpost; [exact H1|].
  cbn [fold_left]. apply IH.
  - apply add_node_other; [|exact H1].
    intros Heq. apply Hpost. left. now rewrite Heq.
  - intros H. apply Hpost. now right.
Qed.

Lemma ensure_node_present (G : DiGraph) (n : Z) :
  In n (map fst (nodes G)) -> ensure_node G n = G.
Proof.
  intros H. unfold ensure_node. apply has_node_spec in H. now rewrite H.
Qed.

Lemma add_edges_present (L : list (Z * Z)) (G : DiGraph) :
  (forall e, In e L ->
     In (fst e) (map fst (nodes G)) /\ In (snd e) (map fst (nodes G))) ->
  NoDup (edges G) ->
  let G' := fold_left (fun G e => add_edge G (fst e) (snd e)) L G in
  nodes G' = nodes G
  /\ NoDup (edges G')
  /\ forall e, In e (edges G') <-> In e (edges G) \/ In e L.
Proof.
  revert G. induction L as [|[u v] L IH]; intros G Hends Hnd; cbv zeta.
  - simpl. split; [reflexivity|]. split; [exact Hnd|tauto].
  - destruct (Hends (u, v) (or_introl eq_refl)) as [Hu Hv].
    cbn [fst snd] in Hu, Hv. cbn [fold_left fst snd].
    set (G1 := add_edge G u v).
    assert (Hn1 : nodes G1 = nodes G).
    { unfold G1, add_edge. rewrite (ensure_node_present G u Hu).
      rewrite (ensure_node_present G v Hv). now destruct (has_edge G u v). }
    assert (He1 : NoDup (edges G1)
                  /\ forall e, In e (edges G1) <-> In e (edges G) \/ e = (u, v)).
    { unfold G1, add_edge. rewrite (ensure_node_present G u Hu).
      rewrite (ensure_node_present G v Hv).
      destruct (has_edge G u v) eqn:E; cbn [edges].
      - apply has_edge_spec in E. split; [exact Hnd|].
        intros e. split; [tauto|]. intros [H| ->]; assumption.
      - split.
        + apply NoDup_app; [exact Hnd|repeat constructor; auto|].
          intros x Hx [<-|[]]. apply has_edge_spec in Hx. congruence.
        + intros e. rewrite in_app_iff. cbn [In]. split.
          * intros [H|[H|[]]]; auto.
          * intros [H|H]; auto. }
    destruct He1 as [Hnd1 Hin1].
    destruct (IH G1) as [Hn [Hd Hin]]; [|exact Hnd1|].
    { intros e He. rewrite Hn1. apply Hends. now right. }
    cbv zeta in Hn, Hd, Hin. split; [now rewrite Hn|]. split; [exact Hd|].
    intros e. rewrite Hin, Hin1. cbn [In]. split.
    + intros [[H|H]|H]; auto.
    + intros [H|[H|H]]; auto.
Qed.

(** X14.  [Chart.__init__] never fails, whatever the frame.  It charts the
    first 100 rows; its graph has one node for each timestamp among them
    (rows that share a timestamp share a node, which carries the attributes
    of the last of them), and as edges, each once, the pairs of neighbours
    of the sorted timestamps. *)
Theorem Chart_init_total (data : list annotated) :
  exists self,
    Chart_init data = Some self
    /\ df self = firstn 100 data
    /\ NoDup (map fst (nodes (G self)))
    /\ (forall id, In id (map fst (nodes (G self))) <->
                   In id (map (fun r : annotated => Gmt_time r) (df self)))
    /\ (forall pre row post,
          df self = pre ++ row :: post ->
          ~ In (Gmt_time row) (map (fun r : annotated => Gmt_time r) post) ->
          In (Gmt_time row, Some (attrs_of row)) (nodes (G self)))
    /\ NoDup (edges (G self))
    /\ (forall e, In e (edges (G self)) <->
                  In e (consecutive_pairs (chronological_ids (df self)))).
Proof.
  unfold Chart_init.
  set (rows := firstn 100 data).
  set (G0 := {| nodes := []; edges := [] |}).
  destruct (add_rows_keys rows G0) as [Hnd [Hkeys Hedges]]; [constructor|].
  cbv zeta in Hnd, Hkeys, Hedges.
  set (G1 := fold_left _ rows G0) in *.
  set (ids := chronological_ids rows).
  assert (Hperm : Permutation ids (map (fun r : annotated => Gmt_time r) rows)).
  { unfold ids. rewrite chronological_ids_sort. apply sort_perm. }
  rewrite add_next_edges_fold by (intros i Hi; apply in_range in Hi; lia).
  rewrite consecutive_by_index.
  destruct (add_edges_present (consecutive_pairs ids) G1)
    as [Hn [Hd Hin]].
  { intros [a b] Hab. apply in_consecutive_pairs in Hab as [Ha Hb].
    cbn [fst snd]. rewrite !Hkeys. split; right;
      eapply Permutation_in; eauto. }
  { rewrite Hedges. constructor. }
  cbv zeta in Hn, Hd, Hin.
  eexists. split; [reflexivity|]. cbn [df G].
  split; [reflexivity|]. rewrite Hn.
  split; [exact Hnd|]. split.
  - intros id. rewrite Hkeys. cbn [G0 nodes map In]. tauto.
  - split.
    + intros pre row post Hdf Hpost. unfold G1. rewrite Hdf.
      now apply add_rows_last.
    + split; [exact Hd|]. intros e. rewrite Hin, Hedges.
      cbn [G0 edges In]. tauto.
Qed.

Lemma Chart_init_total_witness :
  exists self,
    Chart_init (annotated_rows Pad csv_shared_time) = Some self
    /\ df self = firstn 100 (annotated_rows Pad csv_shared_time)
    /\ NoDup (map fst (nodes (G self))).
Proof.
  destruct (Chart_init_total (annotated_rows Pad csv_shared_time))
    as [self [Hinit [Hdf [Hnd _]]]].
  exists self. repeat split; assumption.
Defined.

(** ** The order of the rows and the chain *)

Lemma sorted_perm_unique (l l' : list Z) :
  StronglySorted Z.le l -> StronglySorted Z.le l' -> Permutation l l' ->
  l = l'.
Proof.
  intros Hl. revert l'. induction Hl as [|x t Ht IH Hx]; intros l' Hl' Hperm.
  - apply Permutation_nil in Hperm. now subst.
  - destruct l' as [|y t'];
      [apply Permutation_sym, Permutation_nil in Hperm; discriminate|].
    inversion_clear Hl' as [|? ? Ht' Hy].
    rewrite Forall_forall in Hx, Hy.
    assert (Hxy : x = y).
    { assert (Hx' : In x (y :: t'))
        by (eapply Permutation_in; [exact Hperm|now left]).
      assert (Hy' : In y (x :: t))
        by (eapply Permutation_in; [symmetry; exact Hperm|now left]).
      destruct Hx' as [->|Hx']; [reflexivity|].
      destruct Hy' as [->|Hy']; [reflexivity|].
      specialize (Hx y Hy'). specialize (Hy x Hx'). lia. }
    subst y. f_equal. apply IH; [exact Ht'|].
    now apply Permutation_cons_inv in Hperm.
Qed.

(** X15.  The NEXT relationships depend on the timestamps of the frame
    only, not on the order of its rows: two frames with the same timestamps
    give the same sorted ids and the same sequence of NEXT writes. *)
Theorem next_writes_ignore_row_order (data data' : list annotated) :
  Permutation (map (fun r : annotated => Gmt_time r) data)
              (map (fun r : annotated => Gmt_time r) data') ->
  chronological_ids data = chronological_ids data'
  /\ create_consecutive (chronological_ids data)
     = create_consecutive (chronological_ids data').
Proof.
  intros Hperm.
  assert (Hids : chronological_ids data = chronological_ids data').
  { rewrite !chronological_ids_sort.
    apply sorted_perm_unique; try apply sort_sorted.
    rewrite !sort_perm. exact Hperm. }
  split; [exact Hids|now rewrite Hids].
Qed.

Lemma next_writes_ignore_row_order_witness :
  chronological_ids (annotated_rows Pad csv_sample)
  = chronological_ids (rev (annotated_rows Pad csv_sample)).
Proof.
  apply (@next_writes_ignore_row_order (annotated_rows Pad csv_sample)
           (rev (annotated_rows Pad csv_sample))).
  rewrite map_rev. apply Permutation_rev.
Defined.

(** ** Percentiles in order *)

Lemma leq_spec (a b : Q) : leq a b = true <-> a <= b.
Proof.
  unfold leq, fle. cbn [flt feqb]. rewrite orb_true_iff. split.
  - intros [H|H].
    + destruct (a ?= b) eqn:E; try discriminate.
      apply Qlt_alt in E. lra.
    + apply Qeq_bool_iff in H. lra.
  - intros H. destruct (a ?= b) eqn:E.
    + right. apply Qeq_alt in E. now apply Qeq_bool_iff.
    + now left.
    + apply Qgt_alt in E. lra.
Qed.

Lemma insert_sortedQ (x : Q) (l : list Q) :
  Sorted Qle l -> Sorted Qle (insert leq x l).
Proof.
  induction 1 as [|y t Ht IH Hy]; simpl.
  - repeat constructor.
  - destruct (leq x y) eqn:E.
    + apply leq_spec in E. repeat constructor; assumption.
    + assert (Hyx : y <= x).
      { destruct (Qlt_le_dec x y) as [Hlt|Hle]; [|exact Hle].
        assert (leq x y = true) by (apply leq_spec; lra). congruence. }
      constructor; [exact IH|].
      destruct t as [|z t']; simpl.
      * now constructor.
      * inversion_clear Hy. destruct (leq x z); now constructor.
Qed.

Lemma sort_sortedQ (l : list Q) : StronglySorted Qle (sort leq l).
Proof.
  apply Sorted_StronglySorted; [intros a b c; apply Qle_trans|].
  induction l as [|x t IH]; simpl; [constructor|now apply insert_sortedQ].
Qed.

Lemma sorted_nth (s : list Q) (i j : nat) :
  StronglySorted Qle s -> (i <= j < length s)%nat ->
  nth i s 0 <= nth j s 0.
Proof.
  intros Hs. revert i j. induction Hs as [|x t Ht IH Hx]; intros i j Hij;
    [simpl in Hij; lia|].
  destruct j as [|j'].
  - assert (i = 0)%nat by lia. subst i. apply Qle_refl.
  - destruct i as [|i'].
    + cbn [nth]. rewrite Forall_forall in Hx. apply Hx, nth_In.
      simpl in Hij. lia.
    + cbn [nth]. apply IH. simpl in Hij. lia.
Qed.

Lemma dropna_finite (col : list fnum) :
  Forall (fun x => x <> PInf /\ x <> NInf) col ->
  exists qs, dropna col = map Fin qs.
Proof.
  induction 1 as [|x t [Hp Hn] _ [qs IH]]; [now exists []|].
  unfold dropna in *. destruct x as [q| | |]; simpl; try congruence.
  - exists (q :: qs). simpl. now rewrite IH.
  - now exists qs.
Qed.

Lemma floor_position (q : Q) (m : nat) :
  0 <= q <= 1 ->
  let pos := q * inject_Z (Z.of_nat m) in
  (0 <= Qfloor pos <= Z.of_nat m)%Z
  /\ 0 <= pos - inject_Z (Qfloor pos)
  /\ pos - inject_Z (Qfloor pos) <= 1.
Proof.
  intros [Hq0 Hq1] pos.
  assert (HM : 0 <= inject_Z (Z.of_nat m))
    by (unfold Qle; simpl; lia).
  assert (Hpos0 : 0 <= pos) by (apply Qmult_le_0_compat; assumption).
  assert (HposM : pos <= inject_Z (Z.of_nat m)).
  { unfold pos.
    setoid_replace (inject_Z (Z.of_nat m))
      with (1 * inject_Z (Z.of_nat m)) at 2 by ring.
    now apply Qmult_le_compat_r. }
  pose proof (Qfloor_le pos) as Hfl.
  pose proof (Qlt_floor pos) as Hlt.
  split; [split|split].
  - change 0%Z with (Qfloor 0). now apply Qfloor_resp_le.
  - rewrite <- (Qfloor_Z (Z.of_nat m)). now apply Qfloor_resp_le.
  - lra.
  - rewrite inject_Z_plus in Hlt. change (inject_Z 1) with 1 in Hlt. lra.
Qed.

Lemma quantile_finite (q : Q) (col : list fnum) (qs : list Q) :
  dropna col = map Fin qs -> qs <> [] -> 0 <= q <= 1 ->
  quantile q col = Fin (interpolate (sort leq qs) q).
Proof.
  intros Hcol Hne Hq. unfold quantile, interpolate. rewrite Hcol. cbv zeta.
  rewrite <- (sort_map Fin fle qs).
  change (fun a b : Q => fle (Fin a) (Fin b)) with leq.
  set (s := sort leq qs).
  assert (Hlen : length s = length qs)
    by (apply Permutation_length, sort_perm).
  rewrite length_map.
  destruct (length s) as [|m] eqn:Hs;
    [destruct qs; [contradiction|simpl in Hlen; lia]|].
  replace (S m - 1)%nat with m by lia.
  destruct (floor_position m Hq) as [[Hf0 HfM] _]. cbv zeta in Hf0, HfM.
  set (pos := q * inject_Z (Z.of_nat m)) in *.
  set (i := Z.to_nat (Qfloor pos)).
  assert (Hi : (i <= m)%nat) by (unfold i; lia).
  assert (Hnth : forall k, (k <= m)%nat ->
            nth k (map Fin s) NaN = Fin (nth k s 0)).
  { intros k Hk. rewrite (nth_indep _ NaN (Fin 0)) by (rewrite length_map; lia).
    apply map_nth. }
  rewrite (Hnth i Hi), (Hnth (Nat.min (S i) m)) by lia.
  reflexivity.
Qed.

Lemma sorted_length (s : list Q) :
  s <> [] -> length s = S (length s - 1).
Proof. destruct s; [contradiction|simpl; lia]. Qed.

Lemma interpolate_bounds (s : list Q) (q : Q) :
  StronglySorted Qle s -> s <> [] -> 0 <= q <= 1 ->
  let i := Z.to_nat (Qfloor (q * inject_Z (Z.of_nat (length s - 1)))) in
  nth i s 0 <= interpolate s q
  /\ interpolate s q <= nth (Nat.min (S i) (length s - 1)) s 0.
Proof.
  intros Hs Hne Hq i. unfold interpolate. fold i.
  destruct (floor_position (length s - 1) Hq) as [[Hf0 HfM] [Hg0 Hg1]].
  cbv zeta in Hf0, HfM, Hg0, Hg1.
  set (g := q * inject_Z (Z.of_nat (length s - 1)) - inject_Z (Qfloor _)) in *.
  pose proof (sorted_length Hne) as Hlen.
  assert (Hd : nth i s 0 <= nth (Nat.min (S i) (length s - 1)) s 0)
    by (apply sorted_nth; [exact Hs|unfold i; lia]).
  set (lo := nth i s 0) in *.
  set (hi := nth (Nat.min (S i) (length s - 1)) s 0) in *.
  assert (H1 : 0 <= (hi + - lo) * g) by (apply Qmult_le_0_compat; lra).
  assert (H2 : 0 <= (hi + - lo) * (1 - g)) by (apply Qmult_le_0_compat; lra).
  split; [lra|].
  setoid_replace hi with (lo + (hi + - lo) * g + (hi + - lo) * (1 - g)) at 2
    by ring.
  lra.
Qed.

Lemma interpolate_mono (s : list Q) (q1 q2 : Q) :
  StronglySorted Qle s -> s <> [] ->
  0 <= q1 -> q1 <= q2 -> q2 <= 1 ->
  interpolate s q1 <= interpolate s q2.
Proof.
  intros Hs Hne H0 H12 H1.
  assert (Hq1 : 0 <= q1 <= 1) by lra.
  assert (Hq2 : 0 <= q2 <= 1) by lra.
  pose proof (sorted_length Hne) as Hlen.
  set (M := inject_Z (Z.of_nat (length s - 1))).
  assert (HM : 0 <= M) by (unfold M, Qle; simpl; lia).
  assert (Hpos : q1 * M <= q2 * M) by (now apply Qmult_le_compat_r).
  pose proof (Qfloor_resp_le _ _ Hpos) as Hfloor.
  destruct (floor_position (length s - 1) Hq1) as [[Ha0 HaM] _].
  destruct (floor_position (length s - 1) Hq2) as [[Hb0 HbM] _].
  cbv zeta in Ha0, HaM, Hb0, HbM. fold M in Ha0, HaM, Hb0, HbM.
  destruct (interpolate_bounds Hs Hne Hq1) as [_ Hup].
  destruct (interpolate_bounds Hs Hne Hq2) as [Hlow _].
  cbv zeta in Hup, Hlow. fold M in Hup, Hlow.
  destruct (Z.eq_dec (Qfloor (q1 * M)) (Qfloor (q2 * M))) as [Heq|Hne'].
  - unfold interpolate. fold M. rewrite <- Heq.
    set (i := Z.to_nat (Qfloor (q1 * M))).
    assert (Hd : nth i s 0 <= nth (Nat.min (S i) (length s - 1)) s 0)
      by (apply sorted_nth; [exact Hs|unfold i; lia]).
    set (lo := nth i s 0) in *.
    set (hi := nth (Nat.min (S i) (length s - 1)) s 0) in *.
    assert (Hg : 0 <= (hi + - lo) * (q2 * M - q1 * M))
      by (apply Qmult_le_0_compat; lra).
    setoid_replace ((hi + - lo) * (q2 * M - inject_Z (Qfloor (q1 * M))))
      with ((hi + - lo) * (q1 * M - inject_Z (Qfloor (q1 * M)))
            + (hi + - lo) * (q2 * M - q1 * M)) by ring.
    lra.
  - set (i1 := Z.to_nat (Qfloor (q1 * M))) in *.
    set (i2 := Z.to_nat (Qfloor (q2 * M))) in *.
    assert (Hlt : (S i1 <= i2)%nat) by (unfold i1, i2; lia).
    assert (Hi2 : (i2 <= length s - 1)%nat) by (unfold i2; lia).
    replace (Nat.min (S i1) (length s - 1)) with (S i1) in Hup by lia.
    assert (Hmid : nth (S i1) s 0 <= nth i2 s 0)
      by (apply sorted_nth; [exact Hs|lia]).
    lra.
Qed.

Lemma flt_false_of_le (a b : Q) : b <= a -> (Fin a <? Fin b)%F = false.
Proof.
  intros H. simpl. destruct (a ?= b) eqn:E; try reflexivity.
  apply Qlt_alt in E. lra.
Qed.

Lemma annotated_columns (sqrtQ : Q -> Q) (rows : list scored) :
  map (fun r : annotated => Volume r) (compute_guideline_deviation sqrtQ rows)
  = map (fun r : scored => Volume r) rows
  /\ map (fun r : annotated => Return r)
         (compute_guideline_deviation sqrtQ rows)
     = map Return rows.
Proof.
  split.
  - rewrite <- (map_map annotated_scored (fun r : scored => Volume r)).
    now rewrite compute_guideline_deviation_rows.
  - rewrite <- (map_map annotated_scored Return).
    now rewrite compute_guideline_deviation_rows.
Qed.

(** X16.  When no volume is infinite and one at least is present, the two
    volume lines [plot_guideline_scatter] draws (25th and 75th percentile)
    lie inside the band [compute_guideline_deviation] flags with (5th and
    95th), and its return lines are the band of the flag.  So a point
    between the two volume lines is flagged, and drawn red, exactly when
    its return is outside the return lines. *)
Theorem scatter_lines_inside_flag_band (sqrtQ : Q -> Q) (rows : list scored) :
  Forall (fun r : scored => Volume r <> PInf /\ Volume r <> NInf) rows ->
  dropna (map (fun r : scored => Volume r) rows) <> [] ->
  let data := compute_guideline_deviation sqrtQ rows in
  let fig := plot_guideline_scatter sqrtQ data in
  exists p5 p25 p75 p95,
    quantile (5 # 100) (map (fun r : scored => Volume r) rows) = Fin p5
    /\ quantile (95 # 100) (map (fun r : scored => Volume r) rows) = Fin p95
    /\ volume_lines fig = (Fin p25, Fin p75)
    /\ p5 <= p25 /\ p25 <= p75 /\ p75 <= p95
    /\ return_lines fig
       = ((mean (map Return rows) - Fin 2 * std sqrtQ (map Return rows))%F,
          (mean (map Return rows) + Fin 2 * std sqrtQ (map Return rows))%F)
    /\ forall (row : annotated) (v : Q),
         In row data -> Volume row = Fin v -> p25 <= v <= p75 ->
         (deviates_guideline row = true <->
          (Return row <? fst (return_lines fig))%F = true
          \/ (Return row >? snd (return_lines fig))%F = true).
Proof.
  intros Hfin Hsome data fig.
  destruct (annotated_columns sqrtQ rows) as [Hvol Hret].
  destruct (@dropna_finite (map (fun r : scored => Volume r) rows))
    as [qs Hqs]; [now apply Forall_map|].
  assert (Hne : qs <> []) by (intros ->; now apply Hsome).
  assert (Hsorted : StronglySorted Qle (sort leq qs)) by apply sort_sortedQ.
  assert (Hne' : sort leq qs <> []).
  { intros E. apply Hne. apply length_zero_iff_nil.
    rewrite <- (Permutation_length (sort_perm leq qs)), E. reflexivity. }
  exists (interpolate (sort leq qs) (5 # 100)),
         (interpolate (sort leq qs) (25 # 100)),
         (interpolate (sort leq qs) (75 # 100)),
         (interpolate (sort leq qs) (95 # 100)).
  assert (H5 : quantile (5 # 100) (map (fun r : scored => Volume r) rows)
               = Fin (interpolate (sort leq qs) (5 # 100)))
    by (apply quantile_finite; [assumption|assumption|lra]).
  assert (H95 : quantile (95 # 100) (map (fun r : scored => Volume r) rows)
                = Fin (interpolate (sort leq qs) (95 # 100)))
    by (apply quantile_finite; [assumption|assumption|lra]).
  assert (M1 : interpolate (sort leq qs) (5 # 100)
               <= interpolate (sort leq qs) (25 # 100))
    by (apply interpolate_mono; try assumption; lra).
  assert (M2 : interpolate (sort leq qs) (25 # 100)
               <= interpolate (sort leq qs) (75 # 100))
    by (apply interpolate_mono; try assumption; lra).
  assert (M3 : interpolate (sort leq qs) (75 # 100)
               <= interpolate (sort leq qs) (95 # 100))
    by (apply interpolate_mono; try assumption; lra).
  assert (Hlines : return_lines fig
       = ((mean (map Return rows) - Fin 2 * std sqrtQ (map Return rows))%F,
          (mean (map Return rows) + Fin 2 * std sqrtQ (map Return rows))%F)).
  { unfold fig, plot_guideline_scatter. cbn [return_lines]. unfold data.
    now rewrite Hret. }
  split; [exact H5|]. split; [exact H95|]. split.
  { unfold fig, plot_guideline_scatter. cbn [volume_lines]. unfold data.
    rewrite Hvol. f_equal; apply quantile_finite; try assumption; lra. }
  split; [exact M1|]. split; [exact M2|]. split; [exact M3|].
  split; [exact Hlines|].
  intros row v Hrow Hv [Hlo Hhi]. rewrite Hlines. cbn [fst snd].
  apply compute_guideline_deviation_flag in Hrow as [_ ->].
  rewrite H5, H95. change (Volume (annotated_scored row)) with (Volume row).
  rewrite Hv. unfold fgt at 1.
  rewrite (@flt_false_of_le v (interpolate (sort leq qs) (5 # 100))) by lra.
  rewrite (@flt_false_of_le (interpolate (sort leq qs) (95 # 100)) v) by lra.
  cbn [orb]. apply orb_true_iff.
Qed.

Lemma scatter_lines_inside_flag_band_witness :
  exists p5 p25 p75 p95,
    quantile (5 # 100) (map (fun r : scored => Volume r) sample_scored) = Fin p5
    /\ quantile (95 # 100) (map (fun r : scored => Volume r) sample_scored)
       = Fin p95
    /\ volume_lines (plot_guideline_scatter sqrt_micro
                       (compute_guideline_deviation sqrt_micro sample_scored))
       = (Fin p25, Fin p75)
    /\ p5 <= p25 /\ p25 <= p75 /\ p75 <= p95.
Proof.
  destruct (@scatter_lines_inside_flag_band sqrt_micro sample_scored)
    as [p5 [p25 [p75 [p95 [H5 [H95 [Hl [M1 [M2 [M3 _]]]]]]]]]].
  - vm_compute. repeat (constructor; [split; discriminate|]). constructor.
  - vm_compute. discriminate.
  - exists p5, p25, p75, p95. repeat split; assumption.
Defined.

(** ** Small samples *)

Lemma map_Fin_inj (l l' : list Q) : map Fin l = map Fin l' -> l = l'.
Proof.
  revert l'. induction l as [|x t IH]; intros [|y t'] H; try discriminate;
    [reflexivity|].
  injection H as -> H. f_equal. now apply IH.
Qed.

(** The square of the distance of one value to a centre is at most the sum
    of the squares of the distances of all of them, whatever the centre. *)
Lemma square_le_sum (bs : list Q) (a b : Q) :
  In b bs ->
  (b + - a) * (b + - a) <= sumQ (map (fun c => (a + - c) * (a + - c)) bs).
Proof.
  induction bs as [|c t IH]; intros Hin; [destruct Hin|].
  cbn [map sumQ fold_right].
  fold (sumQ (map (fun c => (a + - c) * (a + - c)) t)).
  assert (Hrest : 0 <= sumQ (map (fun c => (a + - c) * (a + - c)) t)).
  { apply sumQ_nonneg, Forall_forall. intros y Hy.
    apply in_map_iff in Hy as [x [<- _]]. apply Qsquare_nonneg. }
  pose proof (Qsquare_nonneg (a + - c)) as Hc.
  destruct Hin as [->|Hin].
  - setoid_replace ((b + - a) * (b + - a)) with ((a + - b) * (a + - b))
      by ring.
    lra.
  - specialize (IH Hin). lra.
Qed.

Lemma square_above (z t : Q) : 3 <= t -> t < Qabs z -> 9 < z * z.
Proof.
  intros Ht Hz.
  assert (H : 0 < (Qabs z - 3) * (Qabs z + 3))
    by (apply Qmult_lt_0_compat; lra).
  assert (E : Qabs z * Qabs z == z * z).
  { rewrite <- Qabs_Qmult. apply Qabs_pos, Qsquare_nonneg. }
  setoid_replace ((Qabs z - 3) * (Qabs z + 3))
    with (Qabs z * Qabs z - 9) in H by ring.
  lra.
Qed.

Section SmallSample.

Variable sqrtQ : Q -> Q.
Hypothesis sqrtQ_close :
  forall q, 0 <= q -> (99 # 100) * q <= sqrtQ q * sqrtQ q.

Lemma fsqrt_finite (y : fnum) (s : Q) :
  fsqrt sqrtQ y = Fin s -> exists q, y = Fin q /\ 0 <= q /\ s = sqrtQ q.
Proof.
  destruct y as [q| | |]; simpl; try discriminate.
  destruct (q ?= 0) eqn:E; try discriminate; intros H; injection H as <-;
    exists q; repeat split.
  - apply Qeq_alt in E. lra.
  - apply Qgt_alt in E. lra.
Qed.

(** The parts of a finite standard deviation. *)
Lemma std_finite (v : list fnum) (s : Q) :
  dropna v = v -> std sqrtQ v = Fin s ->
  exists bs a q,
    v = map Fin bs /\ (2 <= length bs)%nat
    /\ mean v = Fin a
    /\ (count bs - 1) * q
       == sumQ (map (fun c => (a + - c) * (a + - c)) bs)
    /\ 0 <= q /\ s = sqrtQ q.
Proof.
  intros Hv. unfold std, mean. rewrite Hv.
  destruct (length v <=? 1)%nat eqn:Hn; [discriminate|].
  apply Nat.leb_gt in Hn. intros H.
  apply fsqrt_finite in H as [q [Hq [Hq0 ->]]].
  apply fdiv_by_count in Hq as [S [HS ->]]; [|lia].
  apply fold_fadd_finite in HS as [ts [Hts Hsum]].
  destruct v as [|x0 v0] eqn:Ev; [simpl in Hn; lia|]. rewrite <- Ev in *.
  assert (Havg : exists a, (fsum v / of_nat (length v))%F = Fin a).
  { assert (Hin : In (sq (fsum v / of_nat (length v) - x0)%F)
                     (map Fin ts)).
    { rewrite <- Hts, Ev. now left. }
    apply in_map_iff in Hin as [t [Ht _]]. symmetry in Ht.
    apply sq_finite in Ht as [a [_ [Ha _]]]. now exists a. }
  destruct Havg as [a Ha]. rewrite Ha in Hts.
  pose proof Ha as Hsumv.
  apply fdiv_by_count in Hsumv as [T [HT HaT]]; [|lia].
  apply fold_fadd_finite in HT as [bs [Hbs HsumT]].
  assert (Hlen : length v = length bs) by (rewrite Hbs; apply length_map).
  assert (Hcount1 : 0 < inject_Z (Z.of_nat (length v - 1)))
    by (unfold Qlt; simpl; lia).
  assert (Ecount : inject_Z (Z.of_nat (length v - 1)) == count bs - 1).
  { unfold count. rewrite <- Hlen. unfold Qeq; simpl. lia. }
  exists bs, a, (S / inject_Z (Z.of_nat (length v - 1))).
  split; [exact Hbs|]. split; [lia|].
  split; [rewrite Ev in *; exact Ha|].
  split; [|split; [exact Hq0|reflexivity]].
  assert (Ets : ts = map (fun c => (a + - c) * (a + - c)) bs).
  { apply map_Fin_inj. rewrite <- Hts, Hbs, !map_map. reflexivity. }
  rewrite <- Ets, <- Ecount. field_simplify_eq; [lra|lra].
Qed.

(** With at most seven values and a threshold of 3 or more, no value of
    the column is further than the threshold from the mean, in standard
    deviations: the square of a z-score is at most the number of values
    less one. *)
Lemma small_sample_within_threshold (v : list fnum) (x : fnum) (t : Q) :
  dropna v = v -> (length v <= 7)%nat -> 3 <= t -> In x v ->
  (fabs ((x - mean v) / std sqrtQ v) >? Fin t)%F = false.
Proof.
  intros Hv Hlen Ht Hx. unfold fgt.
  destruct (std sqrtQ v) as [s| | |] eqn:Hs.
  2-4: destruct (x - mean v)%F as [d| | |]; cbn [fdiv fabs flt]; try reflexivity.
  2-3: setoid_replace (Qabs 0) with 0 by reflexivity.
  2-3: destruct (t ?= 0) eqn:C; try reflexivity; apply Qlt_alt in C; lra.
  apply std_finite in Hs as [bs [a [q [-> [Hn [-> [Hq [Hq0 ->]]]]]]]];
    [|exact Hv].
  apply in_map_iff in Hx as [b [<- Hb]].
  rewrite length_map in Hlen.
  pose proof (@square_le_sum bs a b Hb) as HB. rewrite <- Hq in HB.
  pose proof (sqrtQ_close Hq0) as HS.
  set (s := sqrtQ q) in *. set (N := count bs) in *.
  set (d := b + - a) in *.
  assert (HN : 2 <= N /\ N <= 7).
  { unfold N, count, Qle; simpl. lia. }
  pose proof (Qsquare_nonneg s) as Hs2. pose proof (Qsquare_nonneg d) as Hd2.
  assert (Hbound : (99 # 100) * (d * d) <= 6 * (s * s)).
  { apply Qle_trans with ((N - 1) * ((99 # 100) * q)).
    - setoid_replace ((N - 1) * ((99 # 100) * q))
        with ((99 # 100) * ((N - 1) * q)) by ring.
      apply Qmult_le_l; [reflexivity|exact HB].
    - apply Qle_trans with ((N - 1) * (s * s)).
      + apply Qmult_le_l; [lra|exact HS].
      + apply Qmult_le_compat_r; lra. }
  assert (Hfin : ~ s == 0 -> (Fin t <? fabs (Fin (d / s)))%F = false).
  { intros Hne. cbn [fabs flt].
    destruct (t ?= Qabs (d / s)) eqn:C; try reflexivity.
    exfalso. apply Qlt_alt in C. pose proof (@square_above _ _ Ht C) as Hz.
    assert (Ed : d * d == (d / s) * (d / s) * (s * s))
      by (field; exact Hne).
    assert (Hpos : 0 < s * s).
    { destruct (Qeq_dec (s * s) 0) as [E|E]; [|lra].
      apply Qmult_integral in E. tauto. }
    assert (Hd : 9 * (s * s) < d * d)
      by (rewrite Ed; apply Qmult_lt_compat_r; assumption).
    lra. }
  unfold fsub. cbn [fneg fadd fdiv]. fold d.
  destruct (s ?= 0) eqn:Cs.
  - apply Qeq_alt in Cs.
    assert (Hd0 : d * d == 0).
    { assert (Es : s * s == 0) by (rewrite Cs; ring).
      rewrite Es in Hbound. lra. }
    assert (Cd : (d ?= 0) = Eq).
    { apply Qeq_alt. apply Qmult_integral in Hd0. tauto. }
    rewrite Cd. reflexivity.
  - apply Hfin. intros E. apply Qeq_alt in E. congruence.
  - apply Hfin. intros E. apply Qeq_alt in E. congruence.
Qed.

(** X17.  A sample too small for the threshold: when at most seven rows
    have a return and the threshold is 3 (the default) or more,
    [detect_outliers] flags no row, whatever the returns are.  The square
    of a z-score is at most the number of returns less one, against any
    centre; the square root may round, provided its square is not below 99%
    of its argument. *)
Theorem no_outlier_among_seven_returns (fill : fill_method) (t : Q)
  (data : list candle) :
  3 <= t ->
  (length (detect_outliers sqrtQ fill (Fin t) data) <= 7)%nat ->
  Forall (fun row : scored => is_outlier row = false)
         (detect_outliers sqrtQ fill (Fin t) data).
Proof.
  intros Ht Hlen. apply Forall_forall. intros row Hrow.
  rewrite (detect_outliers_flag _ _ _ _ _ Hrow).
  rewrite detect_outliers_returns.
  apply small_sample_within_threshold.
  - apply dropna_idem.
  - now rewrite <- (detect_outliers_returns sqrtQ fill (Fin t)), length_map.
  - exact Ht.
  - rewrite <- (detect_outliers_returns sqrtQ fill (Fin t)).
    now apply in_map.
Qed.

End SmallSample.

Lemma square_mono (x y : Q) : 0 <= x -> x <= y -> x * x <= y * y.
Proof.
  intros Hx Hxy.
  assert (H : 0 <= (y - x) * (y + x)) by (apply Qmult_le_0_compat; lra).
  setoid_replace ((y - x) * (y + x)) with (y * y - x * x) in H by ring.
  lra.
Qed.

Lemma sqrt_micro_up_close (q : Q) :
  0 <= q -> (99 # 100) * q <= sqrt_micro_up q * sqrt_micro_up q.
Proof.
  intros Hq.
  set (r := Z.sqrt (Qnum q * Z.pos (Qden q) * 1000000000000)).
  set (u := (r + 1) # (Qden q * 1000000)).
  assert (Hr : (0 <= r)%Z) by apply Z.sqrt_nonneg.
  assert (Hu : 0 <= u) by (unfold u, Qle; simpl; lia).
  assert (Hup : u <= sqrt_micro_up q).
  { unfold u, sqrt_micro_up, sqrt_micro. fold r.
    unfold Qle, Qplus; cbn [Qnum Qden]. nia. }
  apply Qle_trans with q; [lra|].
  apply Qle_trans with (u * u); [|now apply square_mono].
  destruct q as [n d]. unfold Qle in Hq; simpl in Hq.
  assert (Hspec : (n * Z.pos d * 1000000000000 < (r + 1) * (r + 1))%Z).
  { unfold r. cbn [Qnum Qden].
    assert (Hn : (0 <= n * Z.pos d * 1000000000000)%Z) by nia.
    pose proof (Z.sqrt_spec _ Hn) as Hs. cbv zeta in Hs.
    unfold Z.succ in Hs. apply Hs. }
  unfold u, Qle, Qmult; cbn [Qnum Qden].
  rewrite !Pos2Z.inj_mul. nia.
Qed.

Lemma no_outlier_among_seven_returns_witness :
  Forall (fun row : scored => is_outlier row = false)
         (detect_outliers sqrt_micro_up Pad (Fin 3) sample_clean).
Proof.
  apply (@no_outlier_among_seven_returns sqrt_micro_up sqrt_micro_up_close
           Pad 3 sample_clean).
  - discriminate.
  - vm_compute. lia.
Defined.
